(** * Aqsis: the inline-archive / object-instance filter

    A shallow embedding of [InlineArchiveFilter]
    (libs/riutil/inlinearchive_filter.cpp) and the properties of its scope
    handling: recording between ArchiveBegin/ArchiveEnd and
    ObjectBegin/ObjectEnd, look-up by name, and replay into the head of the
    filter chain. *)

From Stdlib Require Import ZArith String Ascii List Lia.
From stdpp Require Import base option list strings.

Local Open Scope string_scope.
Local Open Scope list_scope.
Local Open Scope Z_scope.

(** ** Interface calls *)

Definition RtConstToken := string.
Definition RtConstString := string.

(** Argument payload of an interface call.  The filter never inspects it. *)
Inductive RtArg : Type :=
| ArgInt (z : Z)
| ArgString (s : string)
| ArgArray (zs : list Z).

Definition ParamList := list (string * RtArg).

(** [RtArchiveCallback] is a function pointer: null or an address. *)
Definition RtArchiveCallback := option N.

(** One call of the [Ri::Renderer] interface.  The six scope calls and
    [ArchiveRecord] are written by hand in the filter; every other procedure
    is produced by one code-generation template and is represented by [Call]
    with the procedure name and the call arguments. *)
Module Ri.
Inductive Command : Type :=
  | ArchiveBegin (name : RtConstToken) (pList : ParamList)
  | ArchiveEnd
  | ReadArchive (name : RtConstToken) (callback : RtArchiveCallback)
                (pList : ParamList)
  | ObjectBegin (name : RtConstToken)
  | ObjectEnd
  | ObjectInstance (name : RtConstString)
  | ArchiveRecord (type : RtConstToken) (str : string)
  | Call (procName : string) (callArgs : list RtArg).
End Ri.
Import Ri (Command).

(** Error code used by the filter (aqsis/riutil/errorhandler.h). *)
Inductive ErrorCode : Type := EqE_BadHandle.

(** What the filter does to its collaborators: a call on [nextFilter()], or a
    message logged at error severity on [services().errorHandler()]. *)
Inductive Event : Type :=
| Forward (c : Command)
| LogError (code : ErrorCode) (message : string).

(** ** Cached streams *)

(** Modelled from the spec: [CachedRiStream] is declared in ricxx_cache.h,
    which is not among the sources.  It is a named, ordered, append-only
    sequence of commands; [push_back] appends, and replay re-emits every
    contained command, in append order, to a target. *)
Module CachedRiStream.
Record t : Type := Build { name : string; m_cmds : list Command }.

Definition new (nm : string) : t := Build nm [].

Definition push_back (c : Command) (st : t) : t :=
    Build (name st) (m_cmds st ++ [c]).
End CachedRiStream.

(** ** Filter state *)

(** The filter object together with the streams it owns.  A
    [CachedRiStream*] is the index of the stream in [heap]; allocation
    appends to [heap], and nothing is freed before the filter is destroyed. *)
Record InlineArchiveFilter : Type := mkFilter {
  heap : list CachedRiStream.t;
  m_archives : list nat;
  m_objectInstances : list nat;
  m_currCache : option nat;
  m_nested : Z;
  m_inObject : bool
}.

(** The constructor's initialiser list. *)
Definition init : InlineArchiveFilter :=
  mkFilter [] [] [] None 0 false.

Definition set_heap (h : list CachedRiStream.t) (s : InlineArchiveFilter) :=
  mkFilter h (m_archives s) (m_objectInstances s) (m_currCache s)
           (m_nested s) (m_inObject s).
Definition set_archives (v : list nat) (s : InlineArchiveFilter) :=
  mkFilter (heap s) v (m_objectInstances s) (m_currCache s)
           (m_nested s) (m_inObject s).
Definition set_objectInstances (v : list nat) (s : InlineArchiveFilter) :=
  mkFilter (heap s) (m_archives s) v (m_currCache s)
           (m_nested s) (m_inObject s).
Definition set_currCache (p : option nat) (s : InlineArchiveFilter) :=
  mkFilter (heap s) (m_archives s) (m_objectInstances s) p
           (m_nested s) (m_inObject s).
Definition set_nested (n : Z) (s : InlineArchiveFilter) :=
  mkFilter (heap s) (m_archives s) (m_objectInstances s) (m_currCache s)
           n (m_inObject s).
Definition set_inObject (b : bool) (s : InlineArchiveFilter) :=
  mkFilter (heap s) (m_archives s) (m_objectInstances s) (m_currCache s)
           (m_nested s) b.

(** [m_nested] is an [int].  [++] and [--] are taken on 32 bits in two's
    complement; leaving the range needs more than two thousand million
    nested ArchiveBegin calls and is undefined in the source language. *)
Definition INT_MAX : Z := 2147483647.
Definition int_wrap (z : Z) : Z := (z + 2147483648) mod 4294967296 - 2147483648.

(** ** The monad of filter methods

    A method reads and updates the filter, emits events, and may fail to
    return: the only source of that is replay recursion deeper than the
    fuel allows. *)
Definition M (A : Type) : Type :=
  InlineArchiveFilter -> option (A * InlineArchiveFilter * list Event).

Definition ret {A} (a : A) : M A := fun s => Some (a, s, []).

Definition bind {A B} (m : M A) (k : A -> M B) : M B :=
  fun s =>
    match m s with
    | None => None
    | Some (a, s1, t1) =>
        match k a s1 with
        | None => None
        | Some (b, s2, t2) => Some (b, s2, t1 ++ t2)
        end
    end.

Definition get : M InlineArchiveFilter := fun s => Some (s, s, []).
Definition modify (f : InlineArchiveFilter -> InlineArchiveFilter) : M unit :=
  fun s => Some (tt, f s, []).
Definition emit (e : Event) : M unit := fun s => Some (tt, s, [e]).
Definition out_of_fuel {A} : M A := fun _ => None.

#[global] Instance M_ret : MRet M := @ret.
#[global] Instance M_bind : MBind M := fun A B k m => bind m k.

(** A stage of the chain seen from outside: one entry point per command. *)
Definition Renderer : Type := Command -> M unit.

(** [nextFilter().Proc(args)]. *)
Definition nextFilter : Renderer := fun c => emit (Forward c).

(** [new CachedRiStream(name)]: the address of the fresh stream. *)
Definition new_CachedRiStream (nm : string) : M nat :=
  s ← get;
  modify (set_heap (heap s ++ [CachedRiStream.new nm])) ;;
  ret (length (heap s)).

(** [p->push_back(new RiCache::Proc(args))]. *)
Definition cache_push_back (p : nat) (c : Command) : M unit :=
  modify (fun s => set_heap (alter (CachedRiStream.push_back c) p (heap s)) s).

(** Modelled from the spec: [CachedRiStream::replay] (ricxx_cache.h, not
    among the sources) re-emits every contained command, in append order,
    to the target. *)
Fixpoint replay_cmds (target : Renderer) (cs : list Command) : M unit :=
  match cs with
  | [] => ret tt
  | c :: cs' => target c ;; replay_cmds target cs'
  end.

Definition replay (st : CachedRiStream.t) (target : Renderer) : M unit :=
  replay_cmds target (CachedRiStream.m_cmds st).

(** The search loops of [ReadArchive] and [ObjectInstance]: the first
    stream of the vector, from index 0, whose [name()] equals [nm] as a
    string.  An address outside the heap is passed over; a filter built by
    the methods below never holds one (see [wf]). *)
Fixpoint find_stream (h : list CachedRiStream.t) (nm : string)
         (v : list nat) : option CachedRiStream.t :=
  match v with
  | [] => None
  | p :: v' =>
      match h !! p with
      | Some st =>
          if String.eqb (CachedRiStream.name st) nm then Some st
          else find_stream h nm v'
      | None => find_stream h nm v'
      end
  end.

(** ** The methods of the filter *)

Section Methods.
  (** [services().firstFilter()]: the head of the filter chain. *)
Variable firstFilter : Renderer.

Definition ArchiveBegin (name : RtConstToken) (pList : ParamList) : M unit :=
    s ← get;
    match m_currCache s with
    | Some p =>
        modify (set_nested (int_wrap (m_nested s + 1))) ;;
        cache_push_back p (Ri.ArchiveBegin name pList)
    | None =>
        p ← new_CachedRiStream name;
        modify (fun s => set_archives (m_archives s ++ [p]) s) ;;
        modify (fun s => set_currCache (last (m_archives s)) s)
    end.

Definition ArchiveEnd : M unit :=
    s ← get;
    match m_currCache s with
    | Some p =>
        if negb (m_nested s =? 0) then
          cache_push_back p Ri.ArchiveEnd ;;
          modify (set_nested (int_wrap (m_nested s - 1)))
        else modify (set_currCache None)
    | None => modify (set_currCache None)
    end.

Definition ReadArchive (name : RtConstToken) (callback : RtArchiveCallback)
             (pList : ParamList) : M unit :=
    s ← get;
    match m_currCache s with
    | Some p => cache_push_back p (Ri.ReadArchive name callback pList)
    | None =>
        match find_stream (heap s) name (m_archives s) with
        | Some st => replay st firstFilter
        | None => nextFilter (Ri.ReadArchive name callback pList)
        end
    end.

Definition ObjectBegin (name : RtConstToken) : M unit :=
    s ← get;
    match m_currCache s with
    | Some p => cache_push_back p (Ri.ObjectBegin name)
    | None =>
        p ← new_CachedRiStream name;
        modify (fun s => set_objectInstances (m_objectInstances s ++ [p]) s) ;;
        modify (fun s => set_currCache (last (m_objectInstances s)) s) ;;
        modify (set_inObject true)
    end.

Definition ObjectEnd : M unit :=
    s ← get;
    match m_currCache s with
    | Some p =>
        if negb (m_inObject s) then cache_push_back p Ri.ObjectEnd
        else modify (set_inObject false) ;; modify (set_currCache None)
    | None => ret tt
    end.

Definition bad_object_name (name : string) : string :=
    String.append "Bad object name "
      (String "034" (String.append name (String "034" EmptyString))).

Definition ObjectInstance (name : RtConstString) : M unit :=
    s ← get;
    match m_currCache s with
    | Some p => cache_push_back p (Ri.ObjectInstance name)
    | None =>
        match find_stream (heap s) name (m_objectInstances s) with
        | Some st => replay st firstFilter
        | None => emit (LogError EqE_BadHandle (bad_object_name name))
        end
    end.

Definition ArchiveRecord (type : RtConstToken) (str : string) : M unit :=
    s ← get;
    match m_currCache s with
    | None => nextFilter (Ri.ArchiveRecord type str)
    | Some _ => ret tt
    end.

  (** The generated methods ([Declare], [FrameBegin], ...): one template. *)
Definition generated (procName : string) (callArgs : list RtArg) : M unit :=
    s ← get;
    match m_currCache s with
    | Some p => cache_push_back p (Ri.Call procName callArgs)
    | None => nextFilter (Ri.Call procName callArgs)
    end.

  (** Virtual dispatch of one interface call on the filter. *)
Definition handle (c : Command) : M unit :=
    match c with
    | Ri.ArchiveBegin n pl => ArchiveBegin n pl
    | Ri.ArchiveEnd => ArchiveEnd
    | Ri.ReadArchive n cb pl => ReadArchive n cb pl
    | Ri.ObjectBegin n => ObjectBegin n
    | Ri.ObjectEnd => ObjectEnd
    | Ri.ObjectInstance n => ObjectInstance n
    | Ri.ArchiveRecord ty str => ArchiveRecord ty str
    | Ri.Call f args => generated f args
    end.
End Methods.

(** Modelled from the spec: [services().firstFilter()] belongs to
    [Ri::RendererServices], which is not among the sources; replay targets
    the first stage of the whole chain.  Here the chain is the filter
    followed by the next stage, so the head is the filter itself and replay
    re-enters [dispatch].  [fuel] bounds the nesting of replays; the
    recursion of the source is unbounded, and a call that would need more
    nesting than [fuel] has no result. *)
Fixpoint dispatch (fuel : nat) (c : Command) : M unit :=
  handle (match fuel with
          | O => fun _ => out_of_fuel
          | S f => dispatch f
          end) c.

(** The head of the chain as [dispatch fuel] sees it. *)
Definition firstFilter (fuel : nat) : Renderer :=
  match fuel with
  | O => fun _ => out_of_fuel
  | S f => dispatch f
  end.

(** Calls arriving one after the other from the upstream source. *)
Definition run (fuel : nat) (cs : list Command) : M unit :=
  replay_cmds (dispatch fuel) cs.

Definition exec (fuel : nat) (cs : list Command) (s : InlineArchiveFilter)
  : option (InlineArchiveFilter * list Event) :=
  match run fuel cs s with
  | Some (_, s', tr) => Some (s', tr)
  | None => None
  end.

(** The calls made on the next stage, in order. *)
Fixpoint forwarded (tr : list Event) : list Command :=
  match tr with
  | [] => []
  | Forward c :: tr' => c :: forwarded tr'
  | LogError _ _ :: tr' => forwarded tr'
  end.

Fixpoint errors (tr : list Event) : list (ErrorCode * string) :=
  match tr with
  | [] => []
  | Forward _ :: tr' => errors tr'
  | LogError code msg :: tr' => (code, msg) :: errors tr'
  end.

(** The streams of a registry, in registration order. *)
Definition streams (h : list CachedRiStream.t) (v : list nat)
  : list CachedRiStream.t :=
  omap (fun p => h !! p) v.

(** ** Scope states *)

Definition Idle (s : InlineArchiveFilter) : Prop := m_currCache s = None.
Definition Recording (s : InlineArchiveFilter) (p : nat) : Prop :=
  m_currCache s = Some p.
Definition InObjectInstance (s : InlineArchiveFilter) (p : nat) : Prop :=
  m_currCache s = Some p /\ m_inObject s = true.
Definition InArchive (s : InlineArchiveFilter) (p : nat) (d : Z) : Prop :=
  m_currCache s = Some p /\ m_inObject s = false /\ m_nested s = d.

(** ** Vocabulary of the properties *)

(** While recording, a call of the generated methods or a scope call other
    than ArchiveBegin, ArchiveEnd and ObjectEnd is appended to the current
    stream. *)
Definition buffered (s : InlineArchiveFilter) (p : nat) (c : Command)
  : InlineArchiveFilter :=
  set_heap (alter (CachedRiStream.push_back c) p (heap s)) s.

(** A target all of whose returning calls relate the state before to the
    state after. *)
Definition target_rel (R : InlineArchiveFilter -> InlineArchiveFilter -> Prop)
           (t : Renderer) : Prop :=
  forall c s s' tr, t c s = Some (tt, s', tr) -> R s s'.

(** [t2] returns whatever [t1] returns. *)
Definition refines (t1 t2 : Renderer) : Prop :=
  forall c s r, t1 c s = Some r -> t2 c s = Some r.

(** Some stream of the registry [v] is named [nm]. *)
Definition has_log (s : InlineArchiveFilter) (v : list nat) (nm : string) : Prop :=
  exists st, st ∈ streams (heap s) v /\ CachedRiStream.name st = nm.

(** Only ReadArchive and ObjectInstance can start a replay. *)
Definition triggers_replay (c : Command) : bool :=
  match c with
  | Ri.ReadArchive _ _ _ | Ri.ObjectInstance _ => true
  | _ => false
  end.

(** The six scope calls. *)
Definition scope_op (c : Command) : bool :=
  match c with
  | Ri.ArchiveRecord _ _ | Ri.Call _ _ => false
  | _ => true
  end.

(** ArchiveBegin and ArchiveEnd. *)
Definition archive_bracket (c : Command) : bool :=
  match c with
  | Ri.ArchiveBegin _ _ | Ri.ArchiveEnd => true
  | _ => false
  end.

(** The five scope calls that the filter has no forwarding path for. *)
Definition consumed_op (c : Command) : bool :=
  match c with
  | Ri.ArchiveBegin _ _ | Ri.ArchiveEnd
  | Ri.ObjectBegin _ | Ri.ObjectEnd | Ri.ObjectInstance _ => true
  | _ => false
  end.

Definition clean_event (e : Event) : Prop :=
  match e with
  | Forward c => consumed_op c = false
  | LogError _ _ => True
  end.

Definition clean_target (t : Renderer) : Prop :=
  forall c s s' tr, t c s = Some (tt, s', tr) -> Forall clean_event tr.

(** How a scope call is disposed of. *)
Inductive disposal (fuel : nat) (s : InlineArchiveFilter) (c : Command)
          (s' : InlineArchiveFilter) (tr : list Event) : Prop :=
| Buffered (p : nat) :
    Recording s p -> tr = [] ->
    heap s' = alter (CachedRiStream.push_back c) p (heap s) ->
    disposal fuel s c s' tr
| Transition :
    consumed_op c = true -> triggers_replay c = false -> tr = [] ->
    (forall q st, heap s !! q = Some st -> heap s' !! q = Some st) ->
    disposal fuel s c s' tr
| Replayed (st : CachedRiStream.t) :
    Idle s -> triggers_replay c = true ->
    replay st (firstFilter fuel) s = Some (tt, s', tr) ->
    disposal fuel s c s' tr
| Reported (nm : string) :
    Idle s -> c = Ri.ObjectInstance nm ->
    ~ has_log s (m_objectInstances s) nm -> s' = s ->
    tr = [LogError EqE_BadHandle (bad_object_name nm)] ->
    disposal fuel s c s' tr
| Delegated (nm : string) (cb : RtArchiveCallback) (pl : ParamList) :
    Idle s -> c = Ri.ReadArchive nm cb pl ->
    ~ has_log s (m_archives s) nm -> s' = s ->
    tr = [Forward c] ->
    disposal fuel s c s' tr.

(** A head of the chain that ignores what is replayed into it: with it,
    [handle] shows the updates a method makes by itself. *)
Definition skip : Renderer := fun _ => ret tt.

(** Registries grow at the end only, and a stream keeps its address and
    its name. *)
Definition extends (s s' : InlineArchiveFilter) : Prop :=
  (exists a, m_archives s' = m_archives s ++ a) /\
  (exists o, m_objectInstances s' = m_objectInstances s ++ o) /\
  (forall q st, heap s !! q = Some st ->
     exists st', heap s' !! q = Some st' /\
                 CachedRiStream.name st' = CachedRiStream.name st).

(** Every pointer held by the filter is the address of a stream. *)
Definition wf (s : InlineArchiveFilter) : Prop :=
  Forall (fun p => (p < length (heap s))%nat) (m_archives s) /\
  Forall (fun p => (p < length (heap s))%nat) (m_objectInstances s) /\
  (forall p, m_currCache s = Some p -> (p < length (heap s))%nat).

(** A stream that is not the one being recorded is never written to, and
    never becomes current again. *)
Definition closed_kept (s s' : InlineArchiveFilter) : Prop :=
  forall q st, heap s !! q = Some st -> m_currCache s <> Some q ->
               heap s' !! q = Some st /\ m_currCache s' <> Some q.

Definition keeps (s s' : InlineArchiveFilter) : Prop :=
  wf s -> wf s' /\ closed_kept s s'.

(** ** Example inputs *)

Definition Foo1 : Command := Ri.Call "Foo" [ArgInt 1].
Definition Bar2 : Command := Ri.Call "Bar" [ArgInt 2].
Definition Baz3 : Command := Ri.Call "Baz" [ArgInt 3].

Definition scenario : list Command :=
  [ Ri.ArchiveBegin "X" []; Foo1;
    Ri.ArchiveBegin "Y" []; Bar2; Ri.ArchiveEnd;
    Baz3; Ri.ArchiveEnd ].

Definition log_X : CachedRiStream.t :=
  CachedRiStream.Build "X" [Foo1; Ri.ArchiveBegin "Y" []; Bar2; Ri.ArchiveEnd; Baz3].
Definition log_Y : CachedRiStream.t := CachedRiStream.Build "Y" [Bar2].

(** The archive name X recorded twice, with different content. *)
Definition twice_X : list Command :=
  [ Ri.ArchiveBegin "X" []; Foo1; Ri.ArchiveEnd;
    Ri.ArchiveBegin "X" []; Bar2; Ri.ArchiveEnd ].

Definition after_twice_X : InlineArchiveFilter :=
  mkFilter [CachedRiStream.Build "X" [Foo1]; CachedRiStream.Build "X" [Bar2]]
           [0%nat; 1%nat] [] None 0 false.

(** The Idle filter left by ObjectBegin o; ArchiveBegin a; ObjectEnd: the
    ObjectEnd closes the object without touching the depth, which stays
    at 1. *)
Definition leaves_depth_1 : list Command :=
  [ Ri.ObjectBegin "o"; Ri.ArchiveBegin "a" []; Ri.ObjectEnd ].

Definition idle_at_depth_1 : InlineArchiveFilter :=
  mkFilter [CachedRiStream.Build "o" [Ri.ArchiveBegin "a" []]]
           [] [0%nat] None 1 false.

(** The Idle filter that already holds an archive named B. *)
Definition holds_B : InlineArchiveFilter :=
  mkFilter [CachedRiStream.Build "B" [Foo1]] [0%nat] [] None 0 false.

(** An archive that reads itself. *)
Definition self_reading : InlineArchiveFilter :=
  mkFilter [CachedRiStream.Build "X" [Ri.ReadArchive "X" None []]]
           [0%nat] [] None 0 false.

(** ** Recording and replaying a body *)

Definition is_ArchiveRecord (c : Command) : bool :=
  match c with
  | Ri.ArchiveRecord _ _ => true
  | _ => false
  end.

(** What a stream keeps of the calls that arrive while it is recorded:
    all of them but the ArchiveRecord calls. *)
Definition recorded (cs : list Command) : list Command :=
  List.filter (fun c => negb (is_ArchiveRecord c)) cs.

(** The depth after the calls [cs] arrive at depth [d] while a stream is
    recorded.  There is none when an ArchiveEnd arrives at depth 0, which
    ends the recording, or when the counter would leave the range of
    [int]. *)
Fixpoint depth_after (d : Z) (cs : list Command) : option Z :=
  match cs with
  | [] => Some d
  | Ri.ArchiveBegin _ _ :: cs' =>
      if d <? INT_MAX then depth_after (d + 1) cs' else None
  | Ri.ArchiveEnd :: cs' =>
      if d =? 0 then None else depth_after (d - 1) cs'
  | _ :: cs' => depth_after d cs'
  end.

(** The current stream with [cs] appended, at depth [d]. *)
Definition record_into (s : InlineArchiveFilter) (p : nat)
           (st : CachedRiStream.t) (cs : list Command) (d : Z)
  : InlineArchiveFilter :=
  mkFilter (<[p := CachedRiStream.Build (CachedRiStream.name st)
                      (CachedRiStream.m_cmds st ++ cs)]> (heap s))
           (m_archives s) (m_objectInstances s) (m_currCache s)
           d (m_inObject s).

(** The filter after a stream named [nm] with content [cs] has been
    recorded and closed. *)
Definition with_archive (s : InlineArchiveFilter) (nm : string)
           (cs : list Command) : InlineArchiveFilter :=
  mkFilter (heap s ++ [CachedRiStream.Build nm cs])
           (m_archives s ++ [length (heap s)]) (m_objectInstances s)
           None (m_nested s) (m_inObject s).

Definition with_object (s : InlineArchiveFilter) (nm : string)
           (cs : list Command) : InlineArchiveFilter :=
  mkFilter (heap s ++ [CachedRiStream.Build nm cs])
           (m_archives s) (m_objectInstances s ++ [length (heap s)])
           None (m_nested s) false.

(** ** Destruction *)

(** [delete p] on the free store, whose cells are live streams or streams
    already deleted.  There is no result when [p] is not the address of a
    live stream: a pointer deleted twice, or one that points nowhere. *)
Definition delete_stream (p : nat) (h : list (option CachedRiStream.t))
  : option (list (option CachedRiStream.t)) :=
  match h !! p with
  | Some (Some _) => Some (<[p := None]> h)
  | _ => None
  end.

(** One loop of the destructor: [delete v[i]] for every index, in order. *)
Fixpoint delete_each (v : list nat) (h : list (option CachedRiStream.t))
  : option (list (option CachedRiStream.t)) :=
  match v with
  | [] => Some h
  | p :: v' =>
      match delete_stream p h with
      | Some h' => delete_each v' h'
      | None => None
      end
  end.

(** [~InlineArchiveFilter]: the archives, then the object instances. *)
Definition destructor (s : InlineArchiveFilter)
  : option (list (option CachedRiStream.t)) :=
  match delete_each (m_archives s) (Some <$> heap s) with
  | Some h1 => delete_each (m_objectInstances s) h1
  | None => None
  end.

(** Every stream is held by exactly one entry of the two registries. *)
Definition owned (s : InlineArchiveFilter) : Prop :=
  m_archives s ++ m_objectInstances s ≡ₚ seq 0 (length (heap s)).

(** No stream holds an ArchiveRecord. *)
Definition no_records (s : InlineArchiveFilter) : Prop :=
  Forall (fun st => Forall (fun c => is_ArchiveRecord c = false)
                           (CachedRiStream.m_cmds st)) (heap s).

(** * The socket wrapper (aqsistypes/posix/socket_system.cpp) *)

Module Socket.

Definition INVALID_SOCKET : Z := -1.

(** The calls [CqSocket] makes on the operating system, with the arguments
    the source passes. *)
Inductive Sys : Type :=
| sys_socket
| sys_setsockopt (fd : Z)
| sys_bind (fd : Z) (sin_port : Z)
| sys_listen (fd : Z) (backlog : Z)
| sys_close (fd : Z)
| sys_accept (fd : Z)
| sys_connect (fd : Z) (s_addr : Z) (sin_port : Z)
| sys_send (fd : Z) (buf : list ascii).

(** The operating system and the C library, which the source only calls:
    any behaviour of theirs is allowed.  [call] gives the return value of a
    system call; [recv] gives the count and the character of a one-byte
    [recv]; [inet_addr] gives an [in_addr_t], 32 bits without sign. *)
Record OS : Type := mkOS {
  World : Type;
  call : Sys -> World -> Z * World;
  recv : Z -> World -> Z * ascii * World;
  errno : World -> Z;
  htons : Z -> Z;
  inet_addr : string -> Z
}.

(** A line written to [Aqsis::log()] at error level; [ErrorInt] is a text
    followed by an [int]. *)
Inductive LogLine : Type :=
| Error (text : string)
| ErrorInt (text : string) (n : Z).

(** What a method does outside the object, in order. *)
Inductive Event : Type :=
| Called (c : Sys) (r : Z)
| Received (fd : Z) (count : Z) (c : ascii)
| Logged (line : LogLine).

Record CqSocket : Type := mkSocket { m_socket : Z; m_port : Z }.

(** [CqSocket::CqSocket()]. *)
Definition default : CqSocket := mkSocket INVALID_SOCKET 0.

(** [CqSocket::operator bool()]. *)
Definition as_bool (this : CqSocket) : bool :=
  negb (m_socket this =? INVALID_SOCKET).

Section WithOS.
Variable os : OS.

(** A method runs on the object and the world, records what it does, and
    has no result when an assertion fails, when it reads outside a buffer,
    or when a loop does not end within the fuel. *)
Definition IO (A : Type) : Type :=
  CqSocket * World os -> option (A * (CqSocket * World os) * list Event).

Definition io_ret {A} (a : A) : IO A := fun st => Some (a, st, []).

Definition io_bind {A B} (m : IO A) (k : A -> IO B) : IO B :=
  fun st =>
    match m st with
    | None => None
    | Some (a, st1, t1) =>
        match k a st1 with
        | None => None
        | Some (b, st2, t2) => Some (b, st2, t1 ++ t2)
        end
    end.

#[local] Instance IO_ret : MRet IO := @io_ret.
#[local] Instance IO_bind : MBind IO := fun A B k m => io_bind m k.

Definition no_result {A} : IO A := fun _ => None.
Definition this : IO CqSocket := fun st => Some (fst st, st, []).
Definition set_socket (fd : Z) : IO unit :=
  fun st => Some (tt, (mkSocket fd (m_port (fst st)), snd st), []).
Definition set_port (port : Z) : IO unit :=
  fun st => Some (tt, (mkSocket (m_socket (fst st)) port, snd st), []).
Definition syscall (c : Sys) : IO Z :=
  fun st => let '(r, w) := call os c (snd st) in
            Some (r, (fst st, w), [Called c r]).
Definition sysrecv (fd : Z) : IO (Z * ascii) :=
  fun st => let '(n, c, w) := recv os fd (snd st) in
            Some ((n, c), (fst st, w), [Received fd n c]).
Definition get_errno : IO Z := fun st => Some (errno os (snd st), st, []).
Definition log (line : LogLine) : IO unit :=
  fun st => Some (tt, st, [Logged line]).

(** [CqSocket::close]. *)
Definition close : IO unit :=
  s ← this;
  syscall (sys_close (m_socket s)) ;;
  set_socket INVALID_SOCKET.

(** [CqSocket::open]. *)
Definition open : IO bool :=
  fd ← syscall sys_socket;
  set_socket fd ;;
  if fd =? INVALID_SOCKET then
    e ← get_errno;
    log (ErrorInt "Error opening server socket " e) ;;
    mret false
  else
    syscall (sys_setsockopt fd) ;;
    mret true.

(** [CqSocket::bind]. *)
Definition bind (port : Z) : IO bool :=
  s ← this;
  r ← syscall (sys_bind (m_socket s) (htons os port));
  if r =? -1 then
    log (Error "Error binding to socket") ;;
    close ;;
    mret false
  else
    set_port port ;;
    mret true.

(** [CqSocket::listen]. *)
Definition listen : IO bool :=
  s ← this;
  r ← syscall (sys_listen (m_socket s) 5);
  if r =? -1 then
    log (Error "Error listening to socket") ;;
    close ;;
    mret false
  else mret true.

(** [CqSocket::prepare]. *)
Definition prepare (port : Z) : IO bool :=
  o ← open;
  if o : bool then
    b ← bind port;
    if b : bool then
      l ← listen;
      if l : bool then mret true else mret false
    else mret false
  else mret false.

(** [CqSocket::accept]: the result is a new object. *)
Definition accept : IO CqSocket :=
  s ← this;
  c ← syscall (sys_accept (m_socket s));
  if negb (c =? INVALID_SOCKET) then mret (mkSocket c 0) else mret default.

(** [CqSocket::connect].  The assertion at its head ends the program when
    the object has been configured before.  [s_addr] is compared with
    [INVALID_SOCKET] as an unsigned 32-bit number. *)
Definition connect (hostname : string) (port : Z) : IO bool :=
  s ← this;
  if negb ((m_socket s =? -1) && (m_port s =? 0)) then no_result
  else
    fd ← syscall sys_socket;
    set_socket fd ;;
    if inet_addr os hostname =? 4294967295 then
      log (Error "Invalid IP address") ;;
      mret false
    else
      r ← syscall (sys_connect fd (inet_addr os hostname) (htons os port));
      if negb (r =? 0) then
        close ;;
        set_socket INVALID_SOCKET ;;
        mret false
      else
        set_port port ;;
        mret true.

(** The bytes [data.c_str() + tot] up to [need] of them; the string is
    followed by its terminator, and there is no buffer outside it. *)
Definition buffer_at (data : list ascii) (tot need : Z) : option (list ascii) :=
  if (0 <=? tot) && (0 <=? need) && (tot + need <=? Z.of_nat (length data) + 1)
  then Some (take (Z.to_nat need) (drop (Z.to_nat tot) (data ++ ["000"%char])))
  else None.

(** The loop of [CqSocket::sendData]. *)
Fixpoint send_loop (fuel : nat) (data : list ascii) (tot need : Z) : IO Z :=
  if need >? 0 then
    match fuel with
    | O => no_result
    | S f =>
        s ← this;
        match buffer_at data tot need with
        | None => no_result
        | Some buf =>
            n ← syscall (sys_send (m_socket s) buf);
            send_loop f data (int_wrap (tot + n)) (int_wrap (need - n))
        end
    end
  else mret tot.

(** [CqSocket::sendData]; the length of the string is taken as an [int]. *)
Definition sendData (fuel : nat) (data : list ascii) : IO Z :=
  tot ← send_loop fuel data 0 (int_wrap (Z.of_nat (length data)));
  s ← this;
  syscall (sys_send (m_socket s) ["000"%char]) ;;
  mret (int_wrap (tot + 1)).

Section Receive.
(** The buffer of [recvData] is a [std::stringstream&], a class of the C++
    library on which the source makes one call, [put].  What a [put] does
    depends on the stream it is given (its put position, its state, its
    mode), so the buffer is any type with any [put]. *)
Variable Buffer : Type.
Variable put : ascii -> Buffer -> Buffer.

(** [CqSocket::recvData].  [total] is not initialised in the source: its
    first value is a parameter here.  The result is the value returned and
    the buffer after the [put]s. *)
Fixpoint recvData (fuel : nat) (buffer : Buffer) (total : Z)
  : IO (Z * Buffer) :=
  match fuel with
  | O => no_result
  | S f =>
      s ← this;
      '(count, c) ← sysrecv (m_socket s);
      if count <=? 0 then recvData f buffer total
      else if Ascii.eqb c "000" then mret (total, buffer)
      else recvData f (put c buffer) (int_wrap (total + count))
  end.
End Receive.

End WithOS.

(** A [std::stringstream] open for output in the default mode: its
    characters, its put position, and whether its state is good. *)
Record stringstream : Type :=
  mkStringstream { str : list ascii; pptr : nat; good : bool }.

(** [std::stringstream()]. *)
Definition empty_stream : stringstream := mkStringstream [] 0 true.

(** [put] on such a stream.  When the state is not good nothing is stored.
    Otherwise the character is stored at the put position, over the
    character that is there if there is one, and the position advances. *)
Definition sput (c : ascii) (b : stringstream) : stringstream :=
  if good b then
    mkStringstream (take (pptr b) (str b) ++ c :: drop (S (pptr b)) (str b))
                   (S (pptr b)) true
  else b.


(** The lines logged and the system calls made, in order. *)
Definition logged (tr : list Event) : list LogLine :=
  omap (fun e => match e with Logged l => Some l | _ => None end) tr.

Definition calls (tr : list Event) : list Sys :=
  omap (fun e => match e with Called c _ => Some c | _ => None end) tr.

(** The bytes the system took from the buffers of [send]. *)
Definition sent (tr : list Event) : list ascii :=
  concat (omap (fun e => match e with
                         | Called (sys_send _ buf) n => Some (take (Z.to_nat n) buf)
                         | _ => None
                         end) tr).

(** The characters the system delivered through [recv]. *)
Definition delivered (tr : list Event) : list ascii :=
  omap (fun e => match e with
                 | Received _ n c => if 0 <? n then Some c else None
                 | _ => None
                 end) tr.

(** A system whose [send] takes at least one byte of a buffer that has
    some, and never more than the buffer has. *)
Definition send_progresses (os : OS) : Prop :=
  forall fd buf w, buf <> [] ->
    1 <= fst (call os (sys_send fd buf) w) <= Z.of_nat (length buf).

(** An observation [wire] of the world that grows, at each [send], by the
    bytes the system took. *)
Definition queues (os : OS) (wire : World os -> list ascii) : Prop :=
  forall fd buf w,
    wire (snd (call os (sys_send fd buf) w)) =
    wire w ++ take (Z.to_nat (fst (call os (sys_send fd buf) w))) buf.

(** A reliable byte stream between two ends: [send] takes at most [chunk]
    bytes at a time and queues them, [recv] hands out the first byte of the
    queue, or returns 0 when there is none.  Every other call returns 0. *)
Definition pipe (chunk : nat) : OS :=
  mkOS (list ascii)
       (fun c w =>
          match c with
          | sys_send _ buf =>
              (Z.of_nat (length (take chunk buf)), w ++ take chunk buf)
          | _ => (0, w)
          end)
       (fun _ w =>
          match w with
          | [] => (0, "000"%char, [])
          | c :: w' => (1, c, w')
          end)
       (fun _ => 0)
       (fun port => port)
       (fun _ => 0).

(** A system on which every call fails and [recv] returns 0, as on a
    connection that the peer has closed. *)
Definition closed : OS :=
  mkOS unit
       (fun _ w => (-1, w))
       (fun _ w => (0, "000"%char, w))
       (fun _ => 0)
       (fun port => port)
       (fun _ => 4294967295).

End Socket.

(** * Properties *)

(** ** Unfolding the monad *)

Ltac unfold_m :=
  unfold ArchiveBegin, ArchiveEnd, ReadArchive, ObjectBegin, ObjectEnd,
    ObjectInstance, ArchiveRecord, generated, new_CachedRiStream,
    cache_push_back, nextFilter, replay, mbind, M_bind, mret, M_ret, bind,
    ret, get, modify, emit, out_of_fuel in *.

Lemma dispatch_eq (fuel : nat) (c : Command) :
  dispatch fuel c = handle (firstFilter fuel) c.
Proof. destruct fuel; reflexivity. Qed.

Lemma replay_cmds_app (t : Renderer) (cs1 cs2 : list Command) s :
  replay_cmds t (cs1 ++ cs2) s =
  (replay_cmds t cs1 ;; replay_cmds t cs2) s.
Proof.
  revert s; induction cs1 as [|c cs1 IH]; intros s; simpl; unfold_m.
  - destruct (replay_cmds t cs2 s) as [[[[] s2] t2]|]; reflexivity.
  - destruct (t c s) as [[[[] s1] t1]|]; [|reflexivity].
    rewrite IH. unfold_m.
    destruct (replay_cmds t cs1 s1) as [[[[] s2] t2]|]; [|reflexivity].
    destruct (replay_cmds t cs2 s2) as [[[[] s3] t3]|]; [|reflexivity].
    now rewrite app_assoc.
Qed.

(** The three scope states cover every filter. *)
Lemma scope_state_cases (s : InlineArchiveFilter) :
  Idle s \/
  (exists p, InArchive s p (m_nested s)) \/
  (exists p, InObjectInstance s p).
Proof.
  unfold Idle, InArchive, InObjectInstance.
  destruct (m_currCache s) as [p|]; [|now left]. right.
  destruct (m_inObject s); [right | left]; exists p; auto.
Qed.

(** ** More fuel never changes a result *)

Lemma replay_cmds_mono (t1 t2 : Renderer) :
  refines t1 t2 ->
  forall cs s r, replay_cmds t1 cs s = Some r -> replay_cmds t2 cs s = Some r.
Proof.
  intros Ht cs; induction cs as [|c cs IH]; intros s r; simpl; [easy|].
  unfold_m.
  destruct (t1 c s) as [[[[] s1] tr1]|] eqn:E1; [|discriminate].
  rewrite (Ht _ _ _ E1).
  destruct (replay_cmds t1 cs s1) as [[[[] s2] tr2]|] eqn:E2; [|discriminate].
  now rewrite (IH _ _ E2).
Qed.

Lemma handle_mono (t1 t2 : Renderer) :
  refines t1 t2 -> refines (handle t1) (handle t2).
Proof.
  intros Ht c s r.
  destruct c; simpl; try easy; unfold_m;
    (destruct (m_currCache s); [easy|]);
    match goal with
    | |- context [find_stream ?h ?n ?v] =>
        destruct (find_stream h n v) as [st|]; [|easy]
    end;
    destruct (replay_cmds t1 (CachedRiStream.m_cmds st) s)
      as [[[[] s1] tr1]|] eqn:E; try discriminate;
    rewrite (replay_cmds_mono _ _ Ht _ _ _ E); easy.
Qed.

Lemma dispatch_S (fuel : nat) : refines (dispatch fuel) (dispatch (S fuel)).
Proof.
  induction fuel as [|f IH]; intros c s r; rewrite !dispatch_eq;
    apply handle_mono; simpl.
  - intros c' s' r'; unfold out_of_fuel; discriminate.
  - exact IH.
Qed.

Lemma dispatch_mono (f1 f2 : nat) :
  (f1 <= f2)%nat -> refines (dispatch f1) (dispatch f2).
Proof.
  induction 1 as [|f2 _ IH]; intros c s r H; [exact H|].
  apply dispatch_S, IH, H.
Qed.

Lemma exec_mono (f1 f2 : nat) cs s r :
  (f1 <= f2)%nat -> exec f1 cs s = Some r -> exec f2 cs s = Some r.
Proof.
  intros Hle; unfold exec, run.
  destruct (replay_cmds (dispatch f1) cs s) as [[[[] s1] tr1]|] eqn:E;
    [|discriminate].
  now rewrite (replay_cmds_mono _ _ (dispatch_mono _ _ Hle) _ _ _ E).
Qed.

(** ** The recorded scenario *)

(** C1: dispatching BeginArchive X, Foo 1, BeginArchive Y, Bar 2, EndArchive,
    Baz 3, EndArchive from the initial state forwards nothing and leaves the
    filter Idle; the ReadArchive X that follows forwards exactly Foo 1 and
    Baz 3, and afterwards the archive registry holds, besides X, a log named
    Y whose content is exactly Bar 2.  Any amount of fuel that allows one
    level of replay gives this result.  The forwarded calls are those the
    content of X forwards when dispatched from the initial state without
    having been recorded. *)
Theorem scenario_replay_forwards_Foo_Baz :
  forall (callback : RtArchiveCallback) (pList : ParamList) (fuel : nat),
  exists s1 s2 : InlineArchiveFilter,
    exec fuel scenario init = Some (s1, []) /\
    Idle s1 /\
    streams (heap s1) (m_archives s1) = [log_X] /\
    exec (S fuel) [Ri.ReadArchive "X" callback pList] s1 =
      Some (s2, [Forward Foo1; Forward Baz3]) /\
    exec (S fuel) (scenario ++ [Ri.ReadArchive "X" callback pList]) init =
      Some (s2, [Forward Foo1; Forward Baz3]) /\
    Idle s2 /\
    streams (heap s2) (m_archives s2) = [log_X; log_Y] /\
    find_stream (heap s2) "Y" (m_archives s2) = Some log_Y /\
    exec fuel (CachedRiStream.m_cmds log_X) init =
      Some (mkFilter [log_Y] [0%nat] [] None 0 false,
            [Forward Foo1; Forward Baz3]).
Proof.
  intros callback pList fuel.
  exists (mkFilter [log_X] [0%nat] [] None 0 false).
  exists (mkFilter [log_X; log_Y] [0%nat; 1%nat] [] None 0 false).
  repeat split.
  - apply (exec_mono 0 fuel); [lia | vm_compute; reflexivity].
  - apply (exec_mono 1 (S fuel)); [lia | vm_compute; reflexivity].
  - apply (exec_mono 1 (S fuel)); [lia | vm_compute; reflexivity].
  - apply (exec_mono 0 fuel); [lia | vm_compute; reflexivity].
Qed.

(** ** Look-up by name *)

Lemma streams_cons h p v :
  streams h (p :: v) =
  match h !! p with Some st => st :: streams h v | None => streams h v end.
Proof. reflexivity. Qed.

Lemma find_stream_None h nm v :
  find_stream h nm v = None <->
  (forall st, st ∈ streams h v -> CachedRiStream.name st <> nm).
Proof.
  induction v as [|p v IH]; cbn [find_stream].
  - split; [intros _ st Hin; inversion Hin | reflexivity].
  - rewrite streams_cons. destruct (h !! p) as [st|]; [|exact IH].
    destruct (String.eqb_spec (CachedRiStream.name st) nm) as [E|E].
    + split; [discriminate|]. intros H. destruct (H st); [left | exact E].
    + rewrite IH. split.
      * intros H st' Hin. apply elem_of_cons in Hin as [->|Hin]; auto.
      * intros H st' Hin. apply H. now right.
Qed.

Lemma find_stream_Some h nm v st :
  find_stream h nm v = Some st ->
  st ∈ streams h v /\ CachedRiStream.name st = nm.
Proof.
  induction v as [|p v IH]; cbn [find_stream]; [discriminate|].
  rewrite streams_cons. destruct (h !! p) as [st'|]; [|exact IH].
  destruct (String.eqb_spec (CachedRiStream.name st') nm) as [E|E].
  - intros [= ->]. split; [left | exact E].
  - intros H. destruct (IH H). split; [now right | assumption].
Qed.

Lemma has_log_find s v nm :
  has_log s v nm <-> exists st, find_stream (heap s) nm v = Some st.
Proof.
  split.
  - intros (st & Hin & Hn).
    destruct (find_stream (heap s) nm v) as [st'|] eqn:E; [eauto|].
    exfalso. exact (proj1 (find_stream_None _ _ _) E st Hin Hn).
  - intros (st & H). exists st. now apply find_stream_Some.
Qed.

Lemma no_log_find s v nm :
  ~ has_log s v nm <-> find_stream (heap s) nm v = None.
Proof.
  rewrite find_stream_None. unfold has_log. split.
  - intros H st Hin Hn. apply H. eauto.
  - intros H (st & Hin & Hn). exact (H st Hin Hn).
Qed.

(** The search returns the first match, whatever follows it. *)
Lemma find_stream_first h nm pre p post st :
  h !! p = Some st ->
  CachedRiStream.name st = nm ->
  (forall q st', q ∈ pre -> h !! q = Some st' -> CachedRiStream.name st' <> nm) ->
  find_stream h nm (pre ++ p :: post) = Some st.
Proof.
  intros Hp Hn. induction pre as [|q pre IH]; intros Hpre; simpl.
  - rewrite Hp. now apply String.eqb_eq in Hn as ->.
  - destruct (h !! q) as [st'|] eqn:Eq.
    + assert (Hne : CachedRiStream.name st' <> nm)
        by (apply (Hpre q); [left | exact Eq]).
      apply String.eqb_neq in Hne as ->.
      apply IH. intros q' st'' Hin. apply Hpre. now right.
    + apply IH. intros q' st'' Hin. apply Hpre. now right.
Qed.

(** ** One call, state by state *)

Section Steps.
Variable fuel : nat.
Variable s : InlineArchiveFilter.

Lemma buffered_lookup p c st :
  heap s !! p = Some st ->
  heap (buffered s p c) !! p = Some (CachedRiStream.push_back c st).
Proof.
  intros H. unfold buffered; simpl.
  rewrite list_lookup_alter_eq, H. reflexivity.
Qed.

Lemma step_idle_ReadArchive_found nm cb pl st :
  Idle s -> find_stream (heap s) nm (m_archives s) = Some st ->
  dispatch (S fuel) (Ri.ReadArchive nm cb pl) s =
  replay st (dispatch fuel) s.
Proof.
  unfold Idle; intros Hi Hf. simpl. unfold_m. rewrite Hi, Hf.
  destruct (replay_cmds _ _ s) as [[[[] s1] tr1]|]; reflexivity.
Qed.

Lemma step_idle_ReadArchive_missing nm cb pl :
  Idle s -> find_stream (heap s) nm (m_archives s) = None ->
  dispatch fuel (Ri.ReadArchive nm cb pl) s =
  Some (tt, s, [Forward (Ri.ReadArchive nm cb pl)]).
Proof.
  unfold Idle; intros Hi Hf. rewrite dispatch_eq. simpl. unfold_m.
  now rewrite Hi, Hf.
Qed.

Lemma step_idle_ObjectInstance_found nm st :
  Idle s -> find_stream (heap s) nm (m_objectInstances s) = Some st ->
  dispatch (S fuel) (Ri.ObjectInstance nm) s = replay st (dispatch fuel) s.
Proof.
  unfold Idle; intros Hi Hf. simpl. unfold_m. rewrite Hi, Hf.
  destruct (replay_cmds _ _ s) as [[[[] s1] tr1]|]; reflexivity.
Qed.

Lemma step_idle_ObjectInstance_missing nm :
  Idle s -> find_stream (heap s) nm (m_objectInstances s) = None ->
  dispatch fuel (Ri.ObjectInstance nm) s =
  Some (tt, s, [LogError EqE_BadHandle (bad_object_name nm)]).
Proof.
  unfold Idle; intros Hi Hf. rewrite dispatch_eq. simpl. unfold_m.
  now rewrite Hi, Hf.
Qed.

Lemma step_idle_ObjectEnd :
  Idle s -> dispatch fuel Ri.ObjectEnd s = Some (tt, s, []).
Proof.
  unfold Idle; intros Hi. rewrite dispatch_eq. simpl. unfold_m.
  now rewrite Hi.
Qed.

End Steps.

Section RecordingSteps.
Variable fuel : nat.
Variable s : InlineArchiveFilter.
Variable p : nat.
Hypothesis Hrec : Recording s p.

Lemma step_rec_ArchiveBegin nm pl :
  dispatch fuel (Ri.ArchiveBegin nm pl) s =
  Some (tt, buffered (set_nested (int_wrap (m_nested s + 1)) s) p
              (Ri.ArchiveBegin nm pl), []).
Proof.
  rewrite dispatch_eq. simpl. unfold_m. now rewrite Hrec.
Qed.

Lemma step_rec_ArchiveEnd_nested :
  m_nested s <> 0 ->
  dispatch fuel Ri.ArchiveEnd s =
  Some (tt, set_nested (int_wrap (m_nested s - 1)) (buffered s p Ri.ArchiveEnd), []).
Proof.
  intros Hn. rewrite dispatch_eq. simpl. unfold_m. rewrite Hrec.
  apply Z.eqb_neq in Hn as ->. reflexivity.
Qed.

Lemma step_rec_ArchiveEnd_outer :
  m_nested s = 0 ->
  dispatch fuel Ri.ArchiveEnd s = Some (tt, set_currCache None s, []).
Proof.
  intros Hn. rewrite dispatch_eq. simpl. unfold_m. rewrite Hrec, Hn.
  reflexivity.
Qed.

Lemma step_rec_ReadArchive nm cb pl :
  dispatch fuel (Ri.ReadArchive nm cb pl) s =
  Some (tt, buffered s p (Ri.ReadArchive nm cb pl), []).
Proof. rewrite dispatch_eq. simpl. unfold_m. now rewrite Hrec. Qed.

Lemma step_rec_ObjectBegin nm :
  dispatch fuel (Ri.ObjectBegin nm) s =
  Some (tt, buffered s p (Ri.ObjectBegin nm), []).
Proof. rewrite dispatch_eq. simpl. unfold_m. now rewrite Hrec. Qed.

Lemma step_rec_ObjectInstance nm :
  dispatch fuel (Ri.ObjectInstance nm) s =
  Some (tt, buffered s p (Ri.ObjectInstance nm), []).
Proof. rewrite dispatch_eq. simpl. unfold_m. now rewrite Hrec. Qed.

Lemma step_rec_ObjectEnd_archive :
  m_inObject s = false ->
  dispatch fuel Ri.ObjectEnd s = Some (tt, buffered s p Ri.ObjectEnd, []).
Proof.
  intros Ho. rewrite dispatch_eq. simpl. unfold_m. now rewrite Hrec, Ho.
Qed.

Lemma step_rec_ObjectEnd_object :
  m_inObject s = true ->
  dispatch fuel Ri.ObjectEnd s =
  Some (tt, set_currCache None (set_inObject false s), []).
Proof.
  intros Ho. rewrite dispatch_eq. simpl. unfold_m. now rewrite Hrec, Ho.
Qed.

Lemma step_rec_ArchiveRecord ty str :
  dispatch fuel (Ri.ArchiveRecord ty str) s = Some (tt, s, []).
Proof. rewrite dispatch_eq. simpl. unfold_m. now rewrite Hrec. Qed.

Lemma step_rec_Call f args :
  dispatch fuel (Ri.Call f args) s =
  Some (tt, buffered s p (Ri.Call f args), []).
Proof. rewrite dispatch_eq. simpl. unfold_m. now rewrite Hrec. Qed.

End RecordingSteps.

Section IdleSteps.
Variable fuel : nat.
Variable s : InlineArchiveFilter.
Hypothesis Hidle : Idle s.

Lemma set_currCache_idle : set_currCache None s = s.
Proof. destruct s; unfold Idle in Hidle; simpl in *; now subst. Qed.

Lemma step_idle_ArchiveBegin nm pl :
  dispatch fuel (Ri.ArchiveBegin nm pl) s =
  Some (tt, mkFilter (heap s ++ [CachedRiStream.new nm])
                     (m_archives s ++ [length (heap s)])
                     (m_objectInstances s)
                     (Some (length (heap s))) (m_nested s) (m_inObject s), []).
Proof.
  rewrite dispatch_eq. simpl. unfold_m. rewrite Hidle.
  unfold set_currCache, set_archives, set_heap; simpl.
  now rewrite last_snoc.
Qed.

Lemma step_idle_ArchiveEnd :
  dispatch fuel Ri.ArchiveEnd s = Some (tt, s, []).
Proof.
  rewrite dispatch_eq. simpl. unfold_m. rewrite Hidle.
  now rewrite set_currCache_idle.
Qed.

Lemma step_idle_ObjectBegin nm :
  dispatch fuel (Ri.ObjectBegin nm) s =
  Some (tt, mkFilter (heap s ++ [CachedRiStream.new nm])
                     (m_archives s)
                     (m_objectInstances s ++ [length (heap s)])
                     (Some (length (heap s))) (m_nested s) true, []).
Proof.
  rewrite dispatch_eq. simpl. unfold_m. rewrite Hidle.
  unfold set_inObject, set_currCache, set_objectInstances, set_heap; simpl.
  now rewrite last_snoc.
Qed.

Lemma step_idle_ArchiveRecord ty str :
  dispatch fuel (Ri.ArchiveRecord ty str) s =
  Some (tt, s, [Forward (Ri.ArchiveRecord ty str)]).
Proof. rewrite dispatch_eq. simpl. unfold_m. now rewrite Hidle. Qed.

Lemma step_idle_Call f args :
  dispatch fuel (Ri.Call f args) s =
  Some (tt, s, [Forward (Ri.Call f args)]).
Proof. rewrite dispatch_eq. simpl. unfold_m. now rewrite Hidle. Qed.

End IdleSteps.

(** The recursion of the source has no bound: replaying an archive that
    reads itself has no result, whatever the fuel. *)
Lemma self_reading_never_returns (fuel : nat) :
  exec 0 [Ri.ArchiveBegin "X" []; Ri.ReadArchive "X" None []; Ri.ArchiveEnd]
       init = Some (self_reading, []) /\
  dispatch fuel (Ri.ReadArchive "X" None []) self_reading = None.
Proof.
  split; [vm_compute; reflexivity|].
  induction fuel as [|f IH]; [vm_compute; reflexivity|].
  rewrite (step_idle_ReadArchive_found f self_reading "X" None []
             (CachedRiStream.Build "X" [Ri.ReadArchive "X" None []])
             eq_refl eq_refl).
  unfold replay. simpl. unfold_m. now rewrite IH.
Qed.

(** ** Calls that return without any fuel *)

Lemma dispatch_total_direct fuel c s :
  triggers_replay c = false ->
  exists s' tr, dispatch fuel c s = Some (tt, s', tr).
Proof.
  intros Hc. rewrite dispatch_eq.
  destruct c; try discriminate; simpl; unfold_m;
    destruct (m_currCache s); try destruct (negb _); eauto.
Qed.

Lemma replay_total_direct fuel cs :
  Forall (fun c => triggers_replay c = false) cs ->
  forall s, exists s' tr, replay_cmds (dispatch fuel) cs s = Some (tt, s', tr).
Proof.
  induction 1 as [|c cs Hc _ IH]; intros s; simpl.
  - unfold_m. eauto.
  - destruct (dispatch_total_direct fuel c s Hc) as (s1 & tr1 & E1).
    destruct (IH s1) as (s2 & tr2 & E2).
    unfold_m. rewrite E1, E2. eauto.
Qed.

(** ** ReadArchive while Idle *)

(** C2: a ReadArchive of name n dispatched while Idle.  If the archive
    registry has a log named n, the call is exactly the replay of the first
    such log into the head of the chain: the outcome of the call is the
    outcome of the replay, so the call itself forwards nothing and logs
    nothing (and the replay returns as soon as the fuel covers its nested
    replays; with a log free of ReadArchive and ObjectInstance, always).
    Otherwise the same ReadArchive, with its name, callback and parameter
    list, is the one call made on the next stage, the filter is unchanged
    and no error is logged. *)
Theorem ReadArchive_idle_replays_or_forwards :
  forall (s : InlineArchiveFilter) (nm : RtConstToken)
         (cb : RtArchiveCallback) (pl : ParamList),
    Idle s ->
    (has_log s (m_archives s) nm ->
       exists st,
         st ∈ streams (heap s) (m_archives s) /\
         CachedRiStream.name st = nm /\
         (forall fuel,
            dispatch (S fuel) (Ri.ReadArchive nm cb pl) s =
            replay_cmds (dispatch fuel) (CachedRiStream.m_cmds st) s) /\
         (Forall (fun c => triggers_replay c = false) (CachedRiStream.m_cmds st) ->
          exists s' tr, forall fuel,
            dispatch (S fuel) (Ri.ReadArchive nm cb pl) s = Some (tt, s', tr))) /\
    (~ has_log s (m_archives s) nm ->
       forall fuel,
         dispatch fuel (Ri.ReadArchive nm cb pl) s =
         Some (tt, s, [Forward (Ri.ReadArchive nm cb pl)]) /\
         errors [Forward (Ri.ReadArchive nm cb pl)] = []).
Proof.
  intros s nm cb pl Hi. split.
  - intros Hlog. apply has_log_find in Hlog as (st & Hf).
    destruct (find_stream_Some _ _ _ _ Hf) as (Hin & Hn).
    exists st. repeat split; try assumption.
    + intros fuel. now apply step_idle_ReadArchive_found.
    + intros Hdirect.
      destruct (replay_total_direct 0 _ Hdirect s) as (s' & tr & E).
      exists s', tr. intros fuel.
      rewrite (step_idle_ReadArchive_found fuel s nm cb pl st Hi Hf).
      unfold replay.
      apply (replay_cmds_mono (dispatch 0) (dispatch fuel)); [|exact E].
      apply dispatch_mono. lia.
  - intros Hno fuel. apply no_log_find in Hno. split; [|reflexivity].
    now apply step_idle_ReadArchive_missing.
Qed.

Lemma ReadArchive_idle_replays_or_forwards_witness :
  Idle init /\
  dispatch 0 (Ri.ReadArchive "geometry.rib" None []) init =
  Some (tt, init, [Forward (Ri.ReadArchive "geometry.rib" None [])]).
Proof.
  split; [reflexivity|].
  refine (proj1 (proj2 (ReadArchive_idle_replays_or_forwards
                          init "geometry.rib" None [] _) _ 0%nat)).
  - reflexivity.
  - intros (st & Hin & _). inversion Hin.
Defined.

(** ** ObjectInstance of an unknown name *)

(** C3: an ObjectInstance of name n dispatched while Idle, with no log
    named n in the object-instance registry, logs exactly one error
    (EqE_BadHandle with the bad-object-name message), makes no call on the
    next stage and leaves the filter as it was; whatever is dispatched next
    behaves as it would have without the call. *)
Theorem ObjectInstance_unknown_reports_one_error :
  forall (fuel : nat) (s : InlineArchiveFilter) (nm : RtConstString),
    Idle s ->
    ~ has_log s (m_objectInstances s) nm ->
    exists tr,
      dispatch fuel (Ri.ObjectInstance nm) s = Some (tt, s, tr) /\
      errors tr = [(EqE_BadHandle, bad_object_name nm)] /\
      forwarded tr = [] /\
      forall cs,
        exec fuel (Ri.ObjectInstance nm :: cs) s =
        match exec fuel cs s with
        | Some (s', tr') => Some (s', tr ++ tr')
        | None => None
        end.
Proof.
  intros fuel s nm Hi Hno. apply no_log_find in Hno.
  pose proof (step_idle_ObjectInstance_missing fuel s nm Hi Hno) as E.
  eexists. split; [exact E|]. repeat split.
  intros cs. unfold exec, run. simpl. unfold_m. rewrite E.
  destruct (replay_cmds (dispatch fuel) cs s) as [[[[] s1] tr1]|]; reflexivity.
Qed.

Lemma ObjectInstance_unknown_reports_one_error_witness :
  exists tr,
    dispatch 0 (Ri.ObjectInstance "teapot") init = Some (tt, init, tr) /\
    errors tr = [(EqE_BadHandle, bad_object_name "teapot")].
Proof.
  destruct (ObjectInstance_unknown_reports_one_error 0 init "teapot")
    as (tr & E & Herr & _).
  - reflexivity.
  - intros (st & Hin & _). inversion Hin.
  - exists tr. split; assumption.
Defined.

(** ** ObjectEnd without an open object *)

(** C8: an ObjectEnd dispatched while Idle does nothing: no error is
    logged, no call is made on the next stage, and the filter (registries,
    streams, current stream, depth, object flag) is unchanged. *)
Theorem ObjectEnd_idle_is_noop :
  forall (fuel : nat) (s : InlineArchiveFilter),
    Idle s -> dispatch fuel Ri.ObjectEnd s = Some (tt, s, []).
Proof. intros fuel s Hi. now apply step_idle_ObjectEnd. Qed.

Lemma ObjectEnd_idle_is_noop_witness :
  Idle init /\ dispatch 0 Ri.ObjectEnd init = Some (tt, init, []).
Proof.
  split; [reflexivity|]. apply ObjectEnd_idle_is_noop. reflexivity.
Defined.

(** ** Calls outside the six scope calls *)

(** C6, as stated, fails for ArchiveRecord: while the archive "a" is being
    recorded, an ArchiveRecord is not forwarded, but it is not appended to
    the current stream either. *)
Lemma ArchiveRecord_while_recording_is_dropped :
  exists s p st s',
    exec 0 [Ri.ArchiveBegin "a" []] init = Some (s, []) /\
    Recording s p /\
    heap s !! p = Some st /\
    dispatch 0 (Ri.ArchiveRecord "comment" "hello") s = Some (tt, s', []) /\
    heap s' !! p <>
      Some (CachedRiStream.push_back (Ri.ArchiveRecord "comment" "hello") st).
Proof.
  exists (mkFilter [CachedRiStream.new "a"] [0%nat] [] (Some 0%nat) 0 false).
  exists 0%nat, (CachedRiStream.new "a").
  exists (mkFilter [CachedRiStream.new "a"] [0%nat] [] (Some 0%nat) 0 false).
  split; [vm_compute; reflexivity|].
  split; [reflexivity|].
  split; [reflexivity|].
  split; [vm_compute; reflexivity|].
  vm_compute. discriminate.
Qed.

(** C6 (amended): while recording, a call that is not one of the six scope
    calls is never forwarded to the next stage.  A call of the generated
    methods is appended to the current stream and changes nothing else; an
    ArchiveRecord is discarded and leaves the filter unchanged. *)
Theorem other_calls_while_recording :
  forall (fuel : nat) (s : InlineArchiveFilter) (p : nat)
         (st : CachedRiStream.t) (c : Command),
    Recording s p ->
    heap s !! p = Some st ->
    scope_op c = false ->
    exists s',
      dispatch fuel c s = Some (tt, s', []) /\
      match c with
      | Ri.ArchiveRecord _ _ => s' = s
      | _ =>
          s' = buffered s p c /\
          heap s' !! p =
            Some (CachedRiStream.Build (CachedRiStream.name st)
                                       (CachedRiStream.m_cmds st ++ [c]))
      end.
Proof.
  intros fuel s p st c Hrec Hp Hc.
  destruct c; try discriminate.
  - exists s. split; [now apply (step_rec_ArchiveRecord fuel s p) | reflexivity].
  - exists (buffered s p (Ri.Call procName callArgs)).
    split; [now apply step_rec_Call|]. split; [reflexivity|].
    now apply buffered_lookup.
Qed.

Lemma other_calls_while_recording_witness :
  exists s',
    dispatch 0 (Ri.Call "WorldBegin" [])
      (mkFilter [CachedRiStream.new "a"] [0%nat] [] (Some 0%nat) 0 false) =
      Some (tt, s', []) /\
    heap s' !! 0%nat = Some (CachedRiStream.Build "a" [Ri.Call "WorldBegin" []]).
Proof.
  destruct (other_calls_while_recording 0
              (mkFilter [CachedRiStream.new "a"] [0%nat] [] (Some 0%nat) 0 false)
              0%nat (CachedRiStream.new "a") (Ri.Call "WorldBegin" []))
    as (s' & E & _ & Hl); [reflexivity | reflexivity | reflexivity |].
  exists s'. split; assumption.
Defined.

(** ** ArchiveEnd inside an object instance *)

(** C5: the code at ObjectBegin "o"; ArchiveEnd.  After the ObjectBegin the
    filter is recording the object instance "o" at depth 0.  The ArchiveEnd
    is not appended to that stream: it resets the current stream, so the
    recording is closed with "o" left empty, while [m_inObject] stays set.
    An ObjectEnd inside the next archive then closes that archive instead
    of being cached in it. *)
Theorem ArchiveEnd_in_object_at_depth_0_closes_recording :
  exists s1 s2 s3,
    exec 0 [Ri.ObjectBegin "o"] init = Some (s1, []) /\
    InObjectInstance s1 0%nat /\ m_nested s1 = 0 /\
    dispatch 0 Ri.ArchiveEnd s1 = Some (tt, s2, []) /\
    m_currCache s2 = None /\
    m_inObject s2 = true /\
    heap s2 !! 0%nat = Some (CachedRiStream.Build "o" []) /\
    exec 0 [Ri.ArchiveBegin "a" []; Ri.ObjectEnd] s2 = Some (s3, []) /\
    m_currCache s3 = None /\
    heap s3 !! 1%nat = Some (CachedRiStream.Build "a" []).
Proof.
  do 3 eexists. repeat split; vm_compute; reflexivity.
Qed.

(** A matched ArchiveBegin/ArchiveEnd pair inside an object instance is
    buffered: the ArchiveEnd is appended whenever the depth is not 0. *)
Lemma ArchiveEnd_in_object_nested_is_buffered fuel s p st :
  InObjectInstance s p -> m_nested s <> 0 -> heap s !! p = Some st ->
  exists s',
    dispatch fuel Ri.ArchiveEnd s = Some (tt, s', []) /\
    InObjectInstance s' p /\
    heap s' !! p = Some (CachedRiStream.push_back Ri.ArchiveEnd st).
Proof.
  intros [Hrec Hobj] Hn Hp. eexists. split.
  - exact (step_rec_ArchiveEnd_nested fuel s p Hrec Hn).
  - split; [split; assumption|]. simpl. now apply buffered_lookup.
Qed.

(** ** The nesting depth *)

Lemma int_wrap_small z :
  -2147483648 <= z <= INT_MAX -> int_wrap z = z.
Proof.
  unfold int_wrap, INT_MAX. intros H.
  rewrite Z.mod_small; lia.
Qed.

(** ** What reaches the next stage *)

Lemma replay_cmds_clean (t : Renderer) :
  clean_target t ->
  forall cs s s' tr,
    replay_cmds t cs s = Some (tt, s', tr) -> Forall clean_event tr.
Proof.
  intros Ht cs; induction cs as [|c cs IH]; intros s s' tr; simpl; unfold_m.
  - intros [= <- <-]. constructor.
  - destruct (t c s) as [[[[] s1] tr1]|] eqn:E1; [|discriminate].
    destruct (replay_cmds t cs s1) as [[[[] s2] tr2]|] eqn:E2; [|discriminate].
    intros [= <- <-]. apply Forall_app. split; [eapply Ht | eapply IH]; eauto.
Qed.

Lemma handle_clean (t : Renderer) : clean_target t -> clean_target (handle t).
Proof.
  intros Ht c s s' tr.
  destruct c; simpl; unfold_m;
    destruct (m_currCache s);
    try destruct (negb _);
    try (intros [= <- <-]; repeat constructor);
    match goal with
    | |- context [find_stream ?h ?n ?v] =>
        destruct (find_stream h n v) as [st|]
    end;
    try (intros [= <- <-]; repeat constructor);
    destruct (replay_cmds t (CachedRiStream.m_cmds st) s)
      as [[[[] s1] tr1]|] eqn:E; try discriminate;
    intros [= <- <-]; simpl; eapply replay_cmds_clean; eauto.
Qed.

Lemma dispatch_clean (fuel : nat) : clean_target (dispatch fuel).
Proof.
  induction fuel as [|f IH]; intros c s s' tr; rewrite dispatch_eq;
    apply handle_clean; simpl; [|exact IH].
  intros c' s1 s2 tr'; unfold out_of_fuel; discriminate.
Qed.

Lemma disposal_scope_op fuel s c s' tr :
  scope_op c = true ->
  dispatch fuel c s = Some (tt, s', tr) ->
  disposal fuel s c s' tr.
Proof.
  intros Hc. rewrite dispatch_eq.
  destruct c; try discriminate; simpl; unfold_m;
    destruct (m_currCache s) as [p|] eqn:Ecur.
  - intros [= <- <-]. now apply (Buffered _ _ _ _ _ p).
  - intros [= <- <-]. apply Transition; try reflexivity.
    simpl. intros q st Hq. now apply lookup_app_l_Some.
  - destruct (negb (m_nested s =? 0)); intros [= <- <-].
    + now apply (Buffered _ _ _ _ _ p).
    + now apply Transition.
  - intros [= <- <-]. now apply Transition.
  - intros [= <- <-]. now apply (Buffered _ _ _ _ _ p).
  - destruct (find_stream (heap s) name (m_archives s)) as [st|] eqn:Ef.
    + destruct (replay_cmds _ _ s) as [[[[] s1] tr1]|] eqn:E; [|discriminate].
      intros [= <- <-]. now apply (Replayed _ _ _ _ _ st).
    + intros [= <- <-].
      apply (Delegated _ _ _ _ _ name callback pList); try easy.
      now apply no_log_find.
  - intros [= <- <-]. now apply (Buffered _ _ _ _ _ p).
  - intros [= <- <-]. apply Transition; try reflexivity.
    simpl. intros q st Hq. now apply lookup_app_l_Some.
  - destruct (negb (m_inObject s)); intros [= <- <-].
    + now apply (Buffered _ _ _ _ _ p).
    + now apply Transition.
  - intros [= <- <-]. now apply Transition.
  - intros [= <- <-]. now apply (Buffered _ _ _ _ _ p).
  - destruct (find_stream (heap s) name (m_objectInstances s)) as [st|] eqn:Ef.
    + destruct (replay_cmds _ _ s) as [[[[] s1] tr1]|] eqn:E; [|discriminate].
      intros [= <- <-]. now apply (Replayed _ _ _ _ _ st).
    + intros [= <- <-]. apply (Reported _ _ _ _ _ name); try easy.
      now apply no_log_find.
Qed.

(** C9: whatever the state of the filter, no call handed to the next stage
    during a dispatch (directly, or by the replays it starts) is an
    ArchiveBegin, ArchiveEnd, ObjectBegin, ObjectEnd or ObjectInstance.  Such
    a call, when dispatched, is buffered into the current stream, consumed
    as a state transition, answered by a replay, or reported as an error;
    the only scope call with a path to the next stage is ReadArchive, taken
    when the filter is Idle and the name is not found. *)
Theorem scope_calls_are_never_forwarded :
  forall (fuel : nat) (s : InlineArchiveFilter) (c : Command)
         (s' : InlineArchiveFilter) (tr : list Event),
    dispatch fuel c s = Some (tt, s', tr) ->
    (forall c', Forward c' ∈ tr -> consumed_op c' = false) /\
    (consumed_op c = true -> ~ Forward c ∈ tr) /\
    (scope_op c = true -> disposal fuel s c s' tr) /\
    (forall c', Forward c' ∈ tr -> scope_op c' = true ->
       exists nm cb pl, c' = Ri.ReadArchive nm cb pl).
Proof.
  intros fuel s c s' tr H.
  assert (Hclean : forall c', Forward c' ∈ tr -> consumed_op c' = false).
  { intros c' Hin. pose proof (dispatch_clean fuel c s s' tr H) as Hall.
    rewrite Forall_forall in Hall. exact (Hall _ Hin). }
  split; [exact Hclean|]. split; [|split].
  - intros Hc Hin. rewrite (Hclean _ Hin) in Hc. discriminate.
  - intros Hc. now apply disposal_scope_op.
  - intros c' Hin Hs. apply Hclean in Hin.
    destruct c'; try discriminate; eauto.
Qed.

Lemma scope_calls_are_never_forwarded_witness :
  dispatch 1 (Ri.ReadArchive "X" None [])
    (mkFilter [log_X] [0%nat] [] None 0 false) =
    Some (tt, mkFilter [log_X; log_Y] [0%nat; 1%nat] [] None 0 false,
          [Forward Foo1; Forward Baz3]) /\
  consumed_op Foo1 = false.
Proof.
  split; [vm_compute; reflexivity|].
  refine (proj1 (scope_calls_are_never_forwarded 1
     (mkFilter [log_X] [0%nat] [] None 0 false)
     (Ri.ReadArchive "X" None [])
     (mkFilter [log_X; log_Y] [0%nat; 1%nat] [] None 0 false)
     [Forward Foo1; Forward Baz3] _) Foo1 _).
  - vm_compute. reflexivity.
  - left.
Defined.

(** ** What every dispatch preserves *)

Section Preservation.
Variable R : InlineArchiveFilter -> InlineArchiveFilter -> Prop.
Hypothesis R_refl : forall s, R s s.
Hypothesis R_trans : forall s1 s2 s3, R s1 s2 -> R s2 s3 -> R s1 s3.
(** The updates a method makes by itself, replays left out. *)
Hypothesis R_direct :
  forall c s s' tr, handle skip c s = Some (tt, s', tr) -> R s s'.

Lemma replay_cmds_rel (t : Renderer) :
  target_rel R t ->
  forall cs s s' tr, replay_cmds t cs s = Some (tt, s', tr) -> R s s'.
Proof.
  intros Ht cs; induction cs as [|c cs IH]; intros s s' tr; simpl; unfold_m.
  - intros [= <- <-]. apply R_refl.
  - destruct (t c s) as [[[[] s1] tr1]|] eqn:E1; [|discriminate].
    destruct (replay_cmds t cs s1) as [[[[] s2] tr2]|] eqn:E2; [|discriminate].
    intros [= <- <-]. eapply R_trans; [eapply Ht | eapply IH]; eauto.
Qed.

Lemma handle_rel (t : Renderer) : target_rel R t -> target_rel R (handle t).
Proof.
  intros Ht c s s' tr H.
  destruct (triggers_replay c) eqn:Hc.
  - destruct c; try discriminate; simpl in H; unfold_m;
      destruct (m_currCache s) as [p|] eqn:Ecur.
    + apply (R_direct (Ri.ReadArchive name callback pList) s s' tr).
      simpl. unfold_m. now rewrite Ecur.
    + destruct (find_stream (heap s) name (m_archives s)) as [st|] eqn:Ef.
      * destruct (replay_cmds t _ s) as [[[[] s1] tr1]|] eqn:E; [|discriminate].
        injection H as <- <-. eapply replay_cmds_rel; eauto.
      * injection H as <- <-. apply R_refl.
    + apply (R_direct (Ri.ObjectInstance name) s s' tr).
      simpl. unfold_m. now rewrite Ecur.
    + destruct (find_stream (heap s) name (m_objectInstances s)) as [st|] eqn:Ef.
      * destruct (replay_cmds t _ s) as [[[[] s1] tr1]|] eqn:E; [|discriminate].
        injection H as <- <-. eapply replay_cmds_rel; eauto.
      * injection H as <- <-. apply R_refl.
  - apply (R_direct c s s' tr). destruct c; try discriminate; exact H.
Qed.

Lemma dispatch_rel (fuel : nat) : target_rel R (dispatch fuel).
Proof.
  induction fuel as [|f IH]; intros c s s' tr; rewrite dispatch_eq;
    apply handle_rel; simpl; [|exact IH].
  intros c' s1 s2 tr'; unfold out_of_fuel; discriminate.
Qed.

Lemma exec_rel fuel cs s s' tr : exec fuel cs s = Some (s', tr) -> R s s'.
Proof.
  unfold exec, run.
  destruct (replay_cmds _ cs s) as [[[[] s1] tr1]|] eqn:E; [|discriminate].
  intros [= <- <-]. eapply replay_cmds_rel; [apply dispatch_rel | exact E].
Qed.

End Preservation.

Lemma extends_refl s : extends s s.
Proof.
  repeat split; try (exists []; now rewrite app_nil_r). eauto.
Qed.

Lemma extends_trans s1 s2 s3 : extends s1 s2 -> extends s2 s3 -> extends s1 s3.
Proof.
  intros ((a1 & Ha1) & (o1 & Ho1) & Hh1) ((a2 & Ha2) & (o2 & Ho2) & Hh2).
  repeat split.
  - exists (a1 ++ a2). now rewrite Ha2, Ha1, app_assoc.
  - exists (o1 ++ o2). now rewrite Ho2, Ho1, app_assoc.
  - intros q st Hq. destruct (Hh1 q st Hq) as (st1 & Hq1 & Hn1).
    destruct (Hh2 q st1 Hq1) as (st2 & Hq2 & Hn2).
    exists st2. split; [exact Hq2 | congruence].
Qed.

Lemma alter_keeps_names c p (h : list CachedRiStream.t) q st :
  h !! q = Some st ->
  exists st', alter (CachedRiStream.push_back c) p h !! q = Some st' /\
              CachedRiStream.name st' = CachedRiStream.name st.
Proof.
  intros Hq. destruct (decide (p = q)) as [->|Hne].
  - rewrite list_lookup_alter_eq, Hq. simpl. eauto.
  - rewrite list_lookup_alter_ne by exact Hne. eauto.
Qed.

Lemma extends_buffered s p c : extends s (buffered s p c).
Proof.
  repeat split; try (exists []; simpl; now rewrite app_nil_r).
  intros q st Hq. now apply alter_keeps_names.
Qed.

Lemma replay_cmds_skip cs s : replay_cmds skip cs s = Some (tt, s, []).
Proof.
  induction cs as [|c cs IH]; simpl; [reflexivity|].
  unfold_m. unfold skip at 1. unfold_m. now rewrite IH.
Qed.

Lemma extends_direct c s s' tr :
  handle skip c s = Some (tt, s', tr) -> extends s s'.
Proof.
  destruct c; simpl; unfold_m; destruct (m_currCache s) as [p|] eqn:Ecur;
    try destruct (negb _);
    try match goal with
        | |- context [find_stream ?h ?n ?v] => destruct (find_stream h n v)
        end;
    try rewrite replay_cmds_skip;
    intros [= <- <-];
    try apply extends_refl;
    try apply (extends_buffered s p);
    try (apply (extends_buffered (set_nested _ s) p)).
  all: repeat split; simpl; eauto using app_nil_r, lookup_app_l_Some;
    try (exists []; now rewrite app_nil_r).
Qed.

Lemma dispatch_extends fuel c s s' tr :
  dispatch fuel c s = Some (tt, s', tr) -> extends s s'.
Proof.
  apply (dispatch_rel extends extends_refl extends_trans extends_direct).
Qed.

Lemma wf_init : wf init.
Proof. repeat split; [constructor | constructor | discriminate]. Qed.

Lemma wf_direct c s s' tr :
  handle skip c s = Some (tt, s', tr) -> wf s -> wf s'.
Proof.
  intros H (Ha & Ho & Hc).
  assert (Hgrow : forall v nm,
            Forall (fun p => (p < length (heap s))%nat) v ->
            Forall (fun p => (p < length (heap s ++ [CachedRiStream.new nm]))%nat) v).
  { intros v nm Hv. eapply Forall_impl; [exact Hv|].
    intros q Hq. simpl in Hq. rewrite length_app. simpl. lia. }
  revert H.
  destruct c; simpl; unfold_m; destruct (m_currCache s) as [p|] eqn:Ecur;
    try destruct (negb _);
    try match goal with
        | |- context [find_stream ?h ?n ?v] => destruct (find_stream h n v)
        end;
    try rewrite replay_cmds_skip;
    intros [= <- <-]; unfold wf; simpl;
    rewrite ?length_alter, ?Ecur;
    try (repeat split; solve [assumption | discriminate]).
  - repeat split; [| now apply Hgrow |].
    + apply Forall_app. split; [now apply Hgrow|].
      repeat constructor. rewrite length_app. simpl. lia.
    + rewrite last_snoc. intros q [= <-]. rewrite length_app. simpl. lia.
  - repeat split; [now apply Hgrow | |].
    + apply Forall_app. split; [now apply Hgrow|].
      repeat constructor. rewrite length_app. simpl. lia.
    + rewrite last_snoc. intros q [= <-]. rewrite length_app. simpl. lia.
Qed.

Lemma dispatch_wf fuel c s s' tr :
  dispatch fuel c s = Some (tt, s', tr) -> wf s -> wf s'.
Proof.
  apply (dispatch_rel (fun s s' => wf s -> wf s')); eauto using wf_direct.
Qed.

Lemma exec_wf fuel cs s' tr :
  exec fuel cs init = Some (s', tr) -> wf s'.
Proof.
  intros H.
  apply (exec_rel (fun s s' => wf s -> wf s')) in H;
    eauto using wf_direct, wf_init.
Qed.

(** In a well-formed filter the stream being recorded exists. *)
Lemma wf_current_stream s p :
  wf s -> Recording s p -> exists st, heap s !! p = Some st.
Proof.
  intros (_ & _ & Hc) Hrec.
  apply lookup_lt_is_Some_2, Hc, Hrec.
Qed.

Lemma keeps_refl s : keeps s s.
Proof. intros Hwf. split; [exact Hwf|]. intros q st Hq Hne. now split. Qed.

Lemma keeps_trans s1 s2 s3 : keeps s1 s2 -> keeps s2 s3 -> keeps s1 s3.
Proof.
  intros H12 H23 Hwf. destruct (H12 Hwf) as (Hwf2 & Hk12).
  destruct (H23 Hwf2) as (Hwf3 & Hk23). split; [exact Hwf3|].
  intros q st Hq Hne. destruct (Hk12 q st Hq Hne) as (Hq2 & Hne2).
  now apply Hk23.
Qed.

Lemma closed_kept_buffered s p c :
  m_currCache s = Some p -> closed_kept s (buffered s p c).
Proof.
  intros Ecur q st Hq Hne. simpl. split; [|exact Hne].
  rewrite list_lookup_alter_ne; [exact Hq|]. congruence.
Qed.

Lemma keeps_direct c s s' tr :
  handle skip c s = Some (tt, s', tr) -> keeps s s'.
Proof.
  intros H Hwf. split; [exact (wf_direct c s s' tr H Hwf)|].
  assert (Hfresh : forall q st, heap s !! q = Some st ->
                     Some (length (heap s)) <> Some q).
  { intros q st Hq [= E]. apply lookup_lt_Some in Hq. lia. }
  revert H.
  destruct c; simpl; unfold_m; destruct (m_currCache s) as [p|] eqn:Ecur;
    try destruct (negb _);
    try match goal with
        | |- context [find_stream ?h ?n ?v] => destruct (find_stream h n v)
        end;
    try rewrite replay_cmds_skip;
    intros [= <- <-]; intros q st Hq Hne; simpl;
    rewrite ?last_snoc;
    try (split; [assumption | first [assumption | discriminate]]);
    try (split; [rewrite list_lookup_alter_ne; [assumption | congruence]
                | first [assumption | discriminate]]);
    try (split; [now apply lookup_app_l_Some | now apply (Hfresh q st)]).
Qed.

Lemma dispatch_keeps fuel c s s' tr :
  dispatch fuel c s = Some (tt, s', tr) -> keeps s s'.
Proof. apply (dispatch_rel keeps keeps_refl keeps_trans keeps_direct). Qed.

Lemma exec_keeps fuel cs s s' tr :
  exec fuel cs s = Some (s', tr) -> keeps s s'.
Proof. apply (exec_rel keeps keeps_refl keeps_trans keeps_direct). Qed.

Lemma exec_extends fuel cs s s' tr :
  exec fuel cs s = Some (s', tr) -> extends s s'.
Proof. apply (exec_rel extends extends_refl extends_trans extends_direct). Qed.

Lemma find_stream_agree h h' nm v a st :
  (forall q, q ∈ v -> h' !! q = h !! q) ->
  find_stream h nm v = Some st ->
  find_stream h' nm (v ++ a) = Some st.
Proof.
  induction v as [|q v IH]; intros Hag; simpl; [discriminate|].
  rewrite (Hag q) by left.
  assert (Hag' : forall q', q' ∈ v -> h' !! q' = h !! q')
    by (intros q' Hin; apply Hag; now right).
  destruct (h !! q) as [st'|]; [|now apply IH].
  destruct (String.eqb (CachedRiStream.name st') nm); [easy | now apply IH].
Qed.

(** Once a name resolves to a stream while the filter is Idle, it resolves
    to that same stream, content included, after any further calls. *)
Lemma find_stream_stable fuel cs s s' tr nm st :
  wf s -> Idle s ->
  exec fuel cs s = Some (s', tr) ->
  (find_stream (heap s) nm (m_archives s) = Some st ->
   find_stream (heap s') nm (m_archives s') = Some st) /\
  (find_stream (heap s) nm (m_objectInstances s) = Some st ->
   find_stream (heap s') nm (m_objectInstances s') = Some st).
Proof.
  intros Hwf Hi H.
  destruct (exec_extends _ _ _ _ _ H) as ((a & Ha) & (o & Ho) & _).
  destruct (exec_keeps _ _ _ _ _ H Hwf) as (_ & Hk).
  destruct Hwf as (Hva & Hvo & _).
  assert (Hsame : forall v, Forall (fun p => (p < length (heap s))%nat) v ->
                   forall q, q ∈ v -> heap s' !! q = heap s !! q).
  { intros v Hv q Hin. rewrite Forall_forall in Hv.
    destruct (lookup_lt_is_Some_2 _ _ (Hv q Hin)) as (stq & Hq).
    rewrite Hq. apply (Hk q stq Hq). rewrite Hi. discriminate. }
  split; intros Hf.
  - rewrite Ha. exact (find_stream_agree _ _ _ _ _ _ (Hsame _ Hva) Hf).
  - rewrite Ho. exact (find_stream_agree _ _ _ _ _ _ (Hsame _ Hvo) Hf).
Qed.

(** ** Several logs under one name *)

(** C10: let the stream [st] named n sit in a registry with no stream named
    n before it (streams named n may follow it).  While Idle, ReadArchive n,
    for the archive registry, and ObjectInstance n, for the object-instance
    registry, replay [st].  A recording always enters its registry at the
    end, so [st] is the earliest-recorded log named n; and after any further
    calls that leave a well-formed filter Idle, among them later recordings
    under the name n, the look-up still selects [st]. *)
Theorem lookup_selects_earliest_recorded :
  forall (s : InlineArchiveFilter) (nm : string) (pre post : list nat)
         (p : nat) (st : CachedRiStream.t),
    Idle s ->
    heap s !! p = Some st ->
    CachedRiStream.name st = nm ->
    (forall q st', q ∈ pre -> heap s !! q = Some st' ->
                   CachedRiStream.name st' <> nm) ->
    (m_archives s = pre ++ p :: post ->
       (forall fuel cb pl,
          dispatch (S fuel) (Ri.ReadArchive nm cb pl) s =
          replay st (dispatch fuel) s) /\
       (wf s -> forall fuel cs s' tr,
          exec fuel cs s = Some (s', tr) -> Idle s' ->
          forall fuel' cb pl,
            dispatch (S fuel') (Ri.ReadArchive nm cb pl) s' =
            replay st (dispatch fuel') s')) /\
    (m_objectInstances s = pre ++ p :: post ->
       (forall fuel,
          dispatch (S fuel) (Ri.ObjectInstance nm) s =
          replay st (dispatch fuel) s) /\
       (wf s -> forall fuel cs s' tr,
          exec fuel cs s = Some (s', tr) -> Idle s' ->
          forall fuel',
            dispatch (S fuel') (Ri.ObjectInstance nm) s' =
            replay st (dispatch fuel') s')) /\
    (forall fuel nm' pl, exists s',
       dispatch fuel (Ri.ArchiveBegin nm' pl) s = Some (tt, s', []) /\
       m_archives s' = m_archives s ++ [length (heap s)] /\
       heap s' !! length (heap s) = Some (CachedRiStream.new nm')) /\
    (forall fuel nm', exists s',
       dispatch fuel (Ri.ObjectBegin nm') s = Some (tt, s', []) /\
       m_objectInstances s' = m_objectInstances s ++ [length (heap s)] /\
       heap s' !! length (heap s) = Some (CachedRiStream.new nm')).
Proof.
  intros s nm pre post p st Hi Hp Hn Hpre.
  pose proof (find_stream_first (heap s) nm pre p post st Hp Hn Hpre) as Hf.
  repeat apply conj.
  - intros Hv. rewrite <- Hv in Hf. split.
    + intros fuel cb pl. now apply step_idle_ReadArchive_found.
    + intros Hwf fuel cs s' tr He Hi' fuel' cb pl.
      apply step_idle_ReadArchive_found; [exact Hi'|].
      now apply (find_stream_stable fuel cs s s' tr nm st Hwf Hi He).
  - intros Hv. rewrite <- Hv in Hf. split.
    + intros fuel. now apply step_idle_ObjectInstance_found.
    + intros Hwf fuel cs s' tr He Hi' fuel'.
      apply step_idle_ObjectInstance_found; [exact Hi'|].
      now apply (find_stream_stable fuel cs s s' tr nm st Hwf Hi He).
  - intros fuel nm' pl. eexists.
    split; [exact (step_idle_ArchiveBegin fuel s Hi nm' pl)|].
    simpl. split; [reflexivity|]. apply list_lookup_middle. reflexivity.
  - intros fuel nm'. eexists.
    split; [exact (step_idle_ObjectBegin fuel s Hi nm')|].
    simpl. split; [reflexivity|]. apply list_lookup_middle. reflexivity.
Qed.

Lemma lookup_selects_earliest_recorded_witness :
  exec 0 twice_X init = Some (after_twice_X, []) /\
  dispatch 1 (Ri.ReadArchive "X" None []) after_twice_X =
    Some (tt, after_twice_X, [Forward Foo1]).
Proof.
  split; [vm_compute; reflexivity|].
  rewrite (proj1 (proj1 (lookup_selects_earliest_recorded
             after_twice_X "X" [] [1%nat] 0%nat (CachedRiStream.Build "X" [Foo1])
             eq_refl eq_refl eq_refl
             ltac:(intros q st' Hin; inversion Hin)) eq_refl) 0%nat None []).
  vm_compute. reflexivity.
Defined.

(** * Further properties of the filter *)

(** ** Sequences of calls *)

Lemma exec_nil fuel s : exec fuel [] s = Some (s, []).
Proof. reflexivity. Qed.

Lemma exec_cons fuel c cs s :
  exec fuel (c :: cs) s =
  match dispatch fuel c s with
  | Some (_, s1, t1) =>
      match exec fuel cs s1 with
      | Some (s2, t2) => Some (s2, t1 ++ t2)
      | None => None
      end
  | None => None
  end.
Proof.
  unfold exec, run. simpl. unfold_m.
  destruct (dispatch fuel c s) as [[[[] s1] t1]|]; [|reflexivity].
  destruct (replay_cmds (dispatch fuel) cs s1) as [[[[] s2] t2]|]; reflexivity.
Qed.

Lemma exec_app fuel cs1 cs2 s :
  exec fuel (cs1 ++ cs2) s =
  match exec fuel cs1 s with
  | Some (s1, t1) =>
      match exec fuel cs2 s1 with
      | Some (s2, t2) => Some (s2, t1 ++ t2)
      | None => None
      end
  | None => None
  end.
Proof.
  revert s; induction cs1 as [|c cs1 IH]; intros s.
  - cbn [app]. rewrite exec_nil.
    destruct (exec fuel cs2 s) as [[s2 t2]|]; reflexivity.
  - cbn [app]. rewrite !exec_cons.
    destruct (dispatch fuel c s) as [[[[] s1] t1]|]; [|reflexivity].
    rewrite IH. destruct (exec fuel cs1 s1) as [[s2 t2]|]; [|reflexivity].
    destruct (exec fuel cs2 s2) as [[s3 t3]|]; [|reflexivity].
    now rewrite app_assoc.
Qed.

Lemma exec_replay fuel st s :
  replay st (dispatch fuel) s =
  match exec fuel (CachedRiStream.m_cmds st) s with
  | Some (s', tr) => Some (tt, s', tr)
  | None => None
  end.
Proof.
  unfold replay, exec, run.
  destruct (replay_cmds _ _ s) as [[[[] s1] t1]|]; reflexivity.
Qed.

Lemma exec_idle_other fuel cs s :
  Idle s -> Forall (fun c => scope_op c = false) cs ->
  exec fuel cs s = Some (s, map Forward cs).
Proof.
  intros Hi Hcs. induction Hcs as [|c cs Hc _ IH]; [reflexivity|].
  rewrite exec_cons.
  assert (E : dispatch fuel c s = Some (tt, s, [Forward c])).
  { destruct c; try discriminate.
    - now apply step_idle_ArchiveRecord.
    - now apply step_idle_Call. }
  now rewrite E, IH.
Qed.

Lemma recorded_other cs :
  Forall (fun c => scope_op c = false) cs ->
  Forall (fun c => scope_op c = false) (recorded cs).
Proof.
  unfold recorded. intros H. rewrite Forall_forall in *.
  intros c Hin. apply list_elem_of_In, filter_In in Hin as [Hin _].
  apply H. now apply list_elem_of_In.
Qed.

Lemma recorded_app cs1 cs2 : recorded (cs1 ++ cs2) = recorded cs1 ++ recorded cs2.
Proof. apply List.filter_app. Qed.

(** X1: while Idle, calls outside the six scope calls pass through: each
    is handed to the next stage as it is, in order, and the filter does not
    change. *)
Theorem idle_passes_other_calls_through :
  forall (fuel : nat) (cs : list Command) (s : InlineArchiveFilter),
    Idle s ->
    Forall (fun c => scope_op c = false) cs ->
    exec fuel cs s = Some (s, map Forward cs) /\
    forwarded (map Forward cs) = cs /\
    errors (map Forward cs) = [].
Proof.
  intros fuel cs s Hi Hcs. split; [now apply exec_idle_other|].
  clear. induction cs as [|c cs [IH1 IH2]]; [now split|].
  simpl. now rewrite IH1, IH2.
Qed.

Lemma idle_passes_other_calls_through_witness :
  exec 0 [Ri.Call "WorldBegin" []; Ri.ArchiveRecord "comment" "hi";
          Ri.Call "WorldEnd" []] init =
  Some (init, [Forward (Ri.Call "WorldBegin" []);
               Forward (Ri.ArchiveRecord "comment" "hi");
               Forward (Ri.Call "WorldEnd" [])]).
Proof.
  refine (proj1 (idle_passes_other_calls_through 0
            [Ri.Call "WorldBegin" []; Ri.ArchiveRecord "comment" "hi";
             Ri.Call "WorldEnd" []] init _ _)).
  - reflexivity.
  - repeat constructor.
Defined.

(** ** Recording a body *)

Lemma insert_alter_same {A} (f : A -> A) (x : A) (p : nat) (h : list A) :
  <[p := x]> (alter f p h) = <[p := x]> h.
Proof.
  rewrite !list_insert_alter, list_alter_alter_eq. reflexivity.
Qed.

Lemma insert_snoc {A} (l : list A) (x y : A) :
  <[length l := x]> (l ++ [y]) = l ++ [x].
Proof.
  replace (length l) with (length l + 0)%nat at 1 by lia.
  now rewrite insert_app_r.
Qed.

Lemma record_into_nil s p st :
  heap s !! p = Some st -> record_into s p st [] (m_nested s) = s.
Proof.
  intros Hp. unfold record_into. rewrite app_nil_r.
  replace (CachedRiStream.Build (CachedRiStream.name st) (CachedRiStream.m_cmds st))
    with st by (now destruct st).
  rewrite list_insert_id by exact Hp. now destruct s.
Qed.

Lemma record_into_buffered s p st c rc d n :
  record_into (set_nested n (buffered s p c)) p (CachedRiStream.push_back c st) rc d =
  record_into s p st (c :: rc) d.
Proof.
  unfold record_into. simpl.
  now rewrite insert_alter_same, <- app_assoc.
Qed.

Lemma record_into_buffered' s p st c rc d :
  record_into (buffered s p c) p (CachedRiStream.push_back c st) rc d =
  record_into s p st (c :: rc) d.
Proof.
  unfold record_into. simpl.
  now rewrite insert_alter_same, <- app_assoc.
Qed.

Lemma exec_recording_flat fuel cs :
  forall s p st,
    Recording s p -> heap s !! p = Some st ->
    Forall (fun c => scope_op c = false) cs ->
    exec fuel cs s = Some (record_into s p st (recorded cs) (m_nested s), []).
Proof.
  induction cs as [|c cs IH]; intros s p st Hrec Hp Hcs.
  - rewrite exec_nil. now rewrite record_into_nil.
  - inversion Hcs as [|? ? Hc Hcs']; subst. rewrite exec_cons.
    destruct c; try discriminate.
    + rewrite (step_rec_ArchiveRecord fuel s p Hrec).
      now rewrite (IH s p st Hrec Hp Hcs').
    + rewrite (step_rec_Call fuel s p Hrec).
      rewrite (IH (buffered s p (Ri.Call procName callArgs)) p
                  (CachedRiStream.push_back (Ri.Call procName callArgs) st)
                  Hrec (buffered_lookup s p _ st Hp) Hcs').
      simpl. now rewrite record_into_buffered'.
Qed.

Lemma exec_recording fuel cs :
  forall s p st d,
    Recording s p -> heap s !! p = Some st ->
    0 <= m_nested s <= INT_MAX ->
    Forall (fun c => c = Ri.ObjectEnd -> m_inObject s = false) cs ->
    depth_after (m_nested s) cs = Some d ->
    exec fuel cs s = Some (record_into s p st (recorded cs) d, []).
Proof.
  induction cs as [|c cs IH]; intros s p st d Hrec Hp Hr Hcs Hd.
  - simpl in Hd. injection Hd as <-. rewrite exec_nil.
    now rewrite record_into_nil.
  - inversion Hcs as [|? ? Hc Hcs']; subst. rewrite exec_cons.
    assert (Hbuf : forall c',
              Forall (fun c0 => c0 = Ri.ObjectEnd -> m_inObject s = false) cs ->
              depth_after (m_nested s) cs = Some d ->
              exec fuel cs (buffered s p c') =
              Some (record_into s p st (c' :: recorded cs) d, [])).
    { intros c' Hf Hd'.
      rewrite (IH (buffered s p c') p (CachedRiStream.push_back c' st) d
                  Hrec (buffered_lookup s p _ st Hp) Hr Hf Hd').
      now rewrite record_into_buffered'. }
    destruct c; cbn [depth_after] in Hd.
    + destruct (Z.ltb_spec (m_nested s) INT_MAX) as [Hlt|]; [|discriminate].
      rewrite (step_rec_ArchiveBegin fuel s p Hrec).
      rewrite int_wrap_small by (unfold INT_MAX in *; lia).
      rewrite (IH (buffered (set_nested (m_nested s + 1) s) p (Ri.ArchiveBegin name pList))
                  p (CachedRiStream.push_back (Ri.ArchiveBegin name pList) st) d
                  Hrec (buffered_lookup _ p _ st Hp)
                  ltac:(simpl; lia) Hcs' Hd).
      unfold record_into. simpl.
      now rewrite insert_alter_same, <- app_assoc.
    + destruct (Z.eqb_spec (m_nested s) 0) as [|Hne]; [discriminate|].
      rewrite (step_rec_ArchiveEnd_nested fuel s p Hrec Hne).
      rewrite int_wrap_small by (unfold INT_MAX in *; lia).
      rewrite (IH (set_nested (m_nested s - 1) (buffered s p Ri.ArchiveEnd))
                  p (CachedRiStream.push_back Ri.ArchiveEnd st) d
                  Hrec (buffered_lookup s p _ st Hp)
                  ltac:(simpl; lia) Hcs' Hd).
      now rewrite record_into_buffered.
    + rewrite (step_rec_ReadArchive fuel s p Hrec). now rewrite Hbuf.
    + rewrite (step_rec_ObjectBegin fuel s p Hrec). now rewrite Hbuf.
    + rewrite (step_rec_ObjectEnd_archive fuel s p Hrec (Hc eq_refl)).
      now rewrite Hbuf.
    + rewrite (step_rec_ObjectInstance fuel s p Hrec). now rewrite Hbuf.
    + rewrite (step_rec_ArchiveRecord fuel s p Hrec).
      now rewrite (IH s p st d Hrec Hp Hr Hcs' Hd).
    + rewrite (step_rec_Call fuel s p Hrec). now rewrite Hbuf.
Qed.

(** X2: a body that arrives while a stream is recorded, with its
    ArchiveBegin/ArchiveEnd pairs nested to any depth (no ArchiveEnd at
    depth 0, the counter inside [int]) and, inside an object instance, no
    ObjectEnd: nothing reaches the next stage, no error is logged, the
    recording stays open on the same stream, the depth ends where the
    brackets leave it, and the stream receives the whole body in order
    except its ArchiveRecord calls. *)
Theorem nested_body_is_recorded :
  forall (fuel : nat) (cs : list Command) (s : InlineArchiveFilter)
         (p : nat) (st : CachedRiStream.t) (d : Z),
    Recording s p ->
    heap s !! p = Some st ->
    0 <= m_nested s <= INT_MAX ->
    Forall (fun c => c = Ri.ObjectEnd -> m_inObject s = false) cs ->
    depth_after (m_nested s) cs = Some d ->
    exists s',
      exec fuel cs s = Some (s', []) /\
      Recording s' p /\
      m_nested s' = d /\
      m_inObject s' = m_inObject s /\
      m_archives s' = m_archives s /\
      m_objectInstances s' = m_objectInstances s /\
      heap s' = <[p := CachedRiStream.Build (CachedRiStream.name st)
                          (CachedRiStream.m_cmds st ++ recorded cs)]> (heap s).
Proof.
  intros fuel cs s p st d Hrec Hp Hr Hcs Hd.
  exists (record_into s p st (recorded cs) d).
  split; [now apply exec_recording|]. repeat split. exact Hrec.
Qed.

Lemma nested_body_is_recorded_witness :
  exists s',
    exec 0 [Ri.ArchiveBegin "B" []; Ri.ArchiveBegin "C" []; Foo1;
            Ri.ArchiveEnd; Ri.ArchiveRecord "comment" "x"; Ri.ObjectEnd;
            Ri.ArchiveEnd]
         (mkFilter [CachedRiStream.new "A"] [0%nat] [] (Some 0%nat) 0 false) =
      Some (s', []) /\
    m_nested s' = 0 /\
    heap s' = [CachedRiStream.Build "A"
                 [Ri.ArchiveBegin "B" []; Ri.ArchiveBegin "C" []; Foo1;
                  Ri.ArchiveEnd; Ri.ObjectEnd; Ri.ArchiveEnd]].
Proof.
  destruct (nested_body_is_recorded 0
              [Ri.ArchiveBegin "B" []; Ri.ArchiveBegin "C" []; Foo1;
               Ri.ArchiveEnd; Ri.ArchiveRecord "comment" "x"; Ri.ObjectEnd;
               Ri.ArchiveEnd]
              (mkFilter [CachedRiStream.new "A"] [0%nat] [] (Some 0%nat) 0 false)
              0%nat (CachedRiStream.new "A") 0)
    as (s' & E & _ & Hd & _ & _ & _ & Hh).
  - reflexivity.
  - reflexivity.
  - vm_compute. split; discriminate.
  - repeat constructor.
  - reflexivity.
  - exists s'. repeat split; assumption.
Defined.

(** ** The nesting depth, call by call and bracket by bracket *)

(** C7, as stated, fails twice.  In InObjectInstance the depth does not
    stay as it is: an ArchiveBegin dispatched while the object instance "o"
    is recorded increases it.  And the outer pair of an archive can enter
    its own log: from the Idle filter left at depth 1 by ObjectBegin o;
    ArchiveBegin a; ObjectEnd, the pair ArchiveBegin X; ArchiveEnd appends
    the ArchiveEnd to X, which stays open. *)
Lemma depth_claim_fails_in_object_and_at_stale_depth :
  (exists s p s',
     exec 0 [Ri.ObjectBegin "o"] init = Some (s, []) /\
     InObjectInstance s p /\
     dispatch 0 (Ri.ArchiveBegin "a" []) s = Some (tt, s', []) /\
     m_nested s' <> m_nested s) /\
  (exists s' p,
     exec 0 leaves_depth_1 init = Some (idle_at_depth_1, []) /\
     Idle idle_at_depth_1 /\
     exec 0 [Ri.ArchiveBegin "X" []; Ri.ArchiveEnd] idle_at_depth_1 =
       Some (s', []) /\
     Recording s' p /\
     heap s' !! p = Some (CachedRiStream.Build "X" [Ri.ArchiveEnd])).
Proof.
  split.
  - exists (mkFilter [CachedRiStream.new "o"] [] [0%nat] (Some 0%nat) 0 true).
    exists 0%nat. eexists.
    split; [vm_compute; reflexivity|].
    split; [split; reflexivity|].
    split; [vm_compute; reflexivity|].
    vm_compute. discriminate.
  - eexists. exists 1%nat.
    split; [vm_compute; reflexivity|].
    split; [reflexivity|].
    split; [vm_compute; reflexivity|].
    split; reflexivity.
Qed.

(** C7 (amended): with the depth inside the range of [int], the depth
    increases by one exactly on an ArchiveBegin that arrives while a stream
    is recorded (archive or object instance), where it is buffered, and
    decreases by one exactly on an ArchiveEnd that arrives while a stream is
    recorded at a depth above 0, where it is buffered.  An ArchiveEnd that
    arrives while recording at depth 0 leaves the depth as it is; in
    InArchive at depth 0 it closes the log without being buffered.  While
    Idle, an ArchiveBegin opens a new, empty stream as current (it is not
    buffered) and an ArchiveEnd changes nothing; neither changes the depth.
    No other call changes the depth unless it starts a replay.  For an
    archive whose ArchiveBegin takes the filter from Idle to InArchive at
    depth 0, with a body whose archive brackets are balanced, the outer
    pair is not buffered into its own log: the filter ends Idle and the log
    holds the body (without its ArchiveRecord calls) and nothing else. *)
Theorem depth_changes_only_on_nested_brackets :
  forall (fuel : nat) (s : InlineArchiveFilter),
    0 <= m_nested s < INT_MAX ->
    (forall p nm pl, Recording s p ->
       exists s',
         dispatch fuel (Ri.ArchiveBegin nm pl) s = Some (tt, s', []) /\
         m_nested s' = m_nested s + 1 /\
         Recording s' p /\
         heap s' = alter (CachedRiStream.push_back (Ri.ArchiveBegin nm pl)) p (heap s)) /\
    (forall p, Recording s p -> 0 < m_nested s ->
       exists s',
         dispatch fuel Ri.ArchiveEnd s = Some (tt, s', []) /\
         m_nested s' = m_nested s - 1 /\
         Recording s' p /\
         heap s' = alter (CachedRiStream.push_back Ri.ArchiveEnd) p (heap s)) /\
    (forall p, Recording s p -> m_nested s = 0 ->
       exists s',
         dispatch fuel Ri.ArchiveEnd s = Some (tt, s', []) /\
         m_nested s' = m_nested s) /\
    (forall p, InArchive s p 0 ->
       dispatch fuel Ri.ArchiveEnd s = Some (tt, set_currCache None s, [])) /\
    (Idle s -> forall nm pl,
       exists s',
         dispatch fuel (Ri.ArchiveBegin nm pl) s = Some (tt, s', []) /\
         m_nested s' = m_nested s /\
         heap s' = heap s ++ [CachedRiStream.Build nm []] /\
         m_archives s' = m_archives s ++ [length (heap s)] /\
         Recording s' (length (heap s))) /\
    (Idle s -> dispatch fuel Ri.ArchiveEnd s = Some (tt, s, [])) /\
    (forall c, archive_bracket c = false ->
       triggers_replay c = false \/ (exists p, Recording s p) ->
       exists s' tr,
         dispatch fuel c s = Some (tt, s', tr) /\ m_nested s' = m_nested s) /\
    (Idle s -> m_nested s = 0 -> m_inObject s = false ->
     forall nm pl cs,
       depth_after 0 cs = Some 0 ->
       (exists s1,
          dispatch fuel (Ri.ArchiveBegin nm pl) s = Some (tt, s1, []) /\
          InArchive s1 (length (heap s)) 0) /\
       exec fuel (Ri.ArchiveBegin nm pl :: cs ++ [Ri.ArchiveEnd]) s =
         Some (with_archive s nm (recorded cs), [])).
Proof.
  intros fuel s Hrange. repeat apply conj.
  - intros p nm pl Hrec. eexists.
    split; [exact (step_rec_ArchiveBegin fuel s p Hrec nm pl)|].
    simpl. repeat split; [|exact Hrec].
    apply int_wrap_small. unfold INT_MAX in *. lia.
  - intros p Hrec Hpos. eexists. split.
    + apply (step_rec_ArchiveEnd_nested fuel s p Hrec). lia.
    + simpl. repeat split; [|exact Hrec].
      apply int_wrap_small. unfold INT_MAX in *. lia.
  - intros p Hrec H0. eexists.
    split; [exact (step_rec_ArchiveEnd_outer fuel s p Hrec H0)|]. reflexivity.
  - intros p (Hrec & _ & H0). exact (step_rec_ArchiveEnd_outer fuel s p Hrec H0).
  - intros Hi nm pl. eexists.
    split; [exact (step_idle_ArchiveBegin fuel s Hi nm pl)|].
    simpl. repeat split.
  - intros Hi. now apply step_idle_ArchiveEnd.
  - intros c Hc Hdirect. rewrite dispatch_eq.
    destruct c; try discriminate; simpl; unfold_m;
      destruct (m_currCache s) as [q|] eqn:Ecur;
      try destruct (negb (m_inObject s));
      try (do 2 eexists; split; reflexivity);
      destruct Hdirect as [Ht|[p Hp]]; try discriminate;
      unfold Recording in Hp; congruence.
  - intros Hi H0 Hobj nm pl cs Hd.
    set (s1 := mkFilter (heap s ++ [CachedRiStream.new nm])
                        (m_archives s ++ [length (heap s)]) (m_objectInstances s)
                        (Some (length (heap s))) (m_nested s) (m_inObject s)).
    split.
    { exists s1. split; [exact (step_idle_ArchiveBegin fuel s Hi nm pl)|].
      repeat split; assumption. }
    rewrite exec_cons, (step_idle_ArchiveBegin fuel s Hi nm pl). fold s1.
    rewrite exec_app.
    assert (Hs1 : m_nested s1 = 0) by exact H0.
    rewrite (exec_recording fuel cs s1 (length (heap s)) (CachedRiStream.new nm) 0
               eq_refl (list_lookup_middle _ _ _ _ eq_refl)).
    + rewrite exec_cons.
      rewrite (step_rec_ArchiveEnd_outer fuel
                 (record_into s1 (length (heap s)) (CachedRiStream.new nm)
                              (recorded cs) 0)
                 (length (heap s)) eq_refl eq_refl).
      rewrite exec_nil. unfold with_archive, record_into, set_currCache. simpl.
      now rewrite insert_snoc, H0.
    + rewrite Hs1. unfold INT_MAX. lia.
    + apply Forall_forall. intros c _ _. exact Hobj.
    + now rewrite Hs1.
Qed.

Lemma depth_changes_only_on_nested_brackets_witness :
  exists s',
    dispatch 0 (Ri.ArchiveBegin "inner" [])
      (mkFilter [CachedRiStream.new "outer"] [0%nat] [] (Some 0%nat) 0 false) =
      Some (tt, s', []) /\
    m_nested s' = 1.
Proof.
  destruct (proj1 (depth_changes_only_on_nested_brackets 0
              (mkFilter [CachedRiStream.new "outer"] [0%nat] [] (Some 0%nat) 0 false)
              ltac:(vm_compute; split; [discriminate | reflexivity]))
              0%nat "inner" [] eq_refl)
    as (s' & E & Hn & _).
  exists s'. split; assumption.
Defined.

(** ** Nesting containment *)

Lemma alter_snoc {A} (f : A -> A) (l : list A) (y : A) :
  alter f (length l) (l ++ [y]) = l ++ [f y].
Proof.
  replace (length l) with (length l + 0)%nat at 1 by lia.
  now rewrite alter_app_r.
Qed.

Lemma has_log_with_archive s A cs B :
  A <> B ->
  (has_log (with_archive s A cs) (m_archives (with_archive s A cs)) B <->
   has_log s (m_archives s) B).
Proof.
  intros Hne. unfold has_log, streams, with_archive. simpl. split.
  - intros (st & Hin & Hn). apply list_elem_of_omap in Hin as (q & Hq & Hst).
    destruct (lt_eq_lt_dec q (length (heap s))) as [[Hlt|Heq]|Hgt].
    + rewrite lookup_app_l in Hst by exact Hlt.
      apply elem_of_app in Hq as [Hq|Hq].
      * exists st. split; [|exact Hn]. apply list_elem_of_omap. eauto.
      * apply list_elem_of_singleton in Hq. lia.
    + subst q. rewrite list_lookup_middle in Hst by reflexivity.
      injection Hst as <-. simpl in Hn. contradiction.
    + rewrite lookup_ge_None_2 in Hst; [discriminate|].
      rewrite length_app. simpl. lia.
  - intros (st & Hin & Hn). apply list_elem_of_omap in Hin as (q & Hq & Hst).
    exists st. split; [|exact Hn]. apply list_elem_of_omap.
    exists q. split; [apply elem_of_app; now left|].
    now apply lookup_app_l_Some.
Qed.

(** C4, as stated, fails from two Idle states.  From the Idle filter left
    at depth 1 by ObjectBegin o; ArchiveBegin a; ObjectEnd, the four calls
    leave the log A open, holding the inner pair and its own ArchiveEnd.
    From an Idle filter that already holds an archive named B, the
    registry holds two closed logs afterwards and a ReadArchive B finds B
    and is not forwarded. *)
Lemma nested_archive_not_contained_at_depth_1_or_with_B :
  (exists s' p,
     exec 0 leaves_depth_1 init = Some (idle_at_depth_1, []) /\
     Idle idle_at_depth_1 /\
     exec 0 [Ri.ArchiveBegin "A" []; Ri.ArchiveBegin "B" [];
             Ri.ArchiveEnd; Ri.ArchiveEnd] idle_at_depth_1 = Some (s', []) /\
     Recording s' p /\
     heap s' !! p =
       Some (CachedRiStream.Build "A"
               [Ri.ArchiveBegin "B" []; Ri.ArchiveEnd; Ri.ArchiveEnd])) /\
  (exists s',
     exec 0 [Ri.ArchiveBegin "B" []; Foo1; Ri.ArchiveEnd] init =
       Some (holds_B, []) /\
     Idle holds_B /\
     exec 0 [Ri.ArchiveBegin "A" []; Ri.ArchiveBegin "B" [];
             Ri.ArchiveEnd; Ri.ArchiveEnd] holds_B = Some (s', []) /\
     length (streams (heap s') (m_archives s')) = 2%nat /\
     has_log s' (m_archives s') "B" /\
     dispatch 1 (Ri.ReadArchive "B" None []) s' = Some (tt, s', [Forward Foo1])).
Proof.
  split.
  - eexists. exists 1%nat.
    split; [vm_compute; reflexivity|].
    split; [reflexivity|].
    split; [vm_compute; reflexivity|].
    split; reflexivity.
  - eexists.
    split; [vm_compute; reflexivity|].
    split; [reflexivity|].
    split; [vm_compute; reflexivity|].
    split; [reflexivity|].
    split; [|vm_compute; reflexivity].
    exists (CachedRiStream.Build "B" [Foo1]). split; [left | reflexivity].
Qed.

(** C4 (amended): from any Idle filter whose depth is 0, ArchiveBegin A;
    ArchiveBegin B; ArchiveEnd; ArchiveEnd forwards nothing, leaves the
    filter Idle and adds exactly one closed log to it: a stream named A, at
    the end of the archive registry, whose content is the inner
    ArchiveBegin B and ArchiveEnd; everything else is as before.  For
    distinct A and B no log named B is created: the registry holds one
    afterwards only if it did before, and when it did not, a ReadArchive B
    that follows does not find B and is passed to the next stage. *)
Theorem nested_archive_is_contained :
  forall (fuel : nat) (s : InlineArchiveFilter) (A B : RtConstToken)
         (plA plB : ParamList),
    Idle s ->
    m_nested s = 0 ->
    exec fuel [Ri.ArchiveBegin A plA; Ri.ArchiveBegin B plB;
               Ri.ArchiveEnd; Ri.ArchiveEnd] s =
      Some (with_archive s A [Ri.ArchiveBegin B plB; Ri.ArchiveEnd], []) /\
    (A <> B ->
     (has_log (with_archive s A [Ri.ArchiveBegin B plB; Ri.ArchiveEnd])
              (m_archives (with_archive s A [Ri.ArchiveBegin B plB; Ri.ArchiveEnd])) B
      <-> has_log s (m_archives s) B) /\
     (~ has_log s (m_archives s) B ->
      forall cb pl,
        dispatch fuel (Ri.ReadArchive B cb pl)
                 (with_archive s A [Ri.ArchiveBegin B plB; Ri.ArchiveEnd]) =
        Some (tt, with_archive s A [Ri.ArchiveBegin B plB; Ri.ArchiveEnd],
              [Forward (Ri.ReadArchive B cb pl)]))).
Proof.
  intros fuel s A B plA plB Hi H0. split.
  - set (s1 := mkFilter (heap s ++ [CachedRiStream.new A])
                        (m_archives s ++ [length (heap s)]) (m_objectInstances s)
                        (Some (length (heap s))) (m_nested s) (m_inObject s)).
    rewrite exec_cons, (step_idle_ArchiveBegin fuel s Hi A plA). fold s1.
    rewrite exec_cons, (step_rec_ArchiveBegin fuel s1 (length (heap s)) eq_refl B plB).
    set (s2 := buffered (set_nested (int_wrap (m_nested s1 + 1)) s1)
                        (length (heap s)) (Ri.ArchiveBegin B plB)).
    assert (H2 : m_nested s2 = 1) by (simpl; rewrite H0; reflexivity).
    rewrite exec_cons.
    rewrite (step_rec_ArchiveEnd_nested fuel s2 (length (heap s)) eq_refl)
      by (rewrite H2; discriminate).
    set (s3 := set_nested (int_wrap (m_nested s2 - 1))
                          (buffered s2 (length (heap s)) Ri.ArchiveEnd)).
    assert (H3 : m_nested s3 = 0) by (simpl; rewrite H0; reflexivity).
    rewrite exec_cons.
    rewrite (step_rec_ArchiveEnd_outer fuel s3 (length (heap s)) eq_refl H3).
    rewrite exec_nil. subst s3 s2 s1. unfold with_archive, buffered, set_currCache, set_nested,
      set_heap. simpl. rewrite H0. f_equal. f_equal.
    rewrite list_alter_alter_eq, alter_snoc. reflexivity.
  - intros Hne. split; [now apply has_log_with_archive|].
    intros Hno cb pl. apply step_idle_ReadArchive_missing; [reflexivity|].
    apply no_log_find. intros Hlog. apply Hno.
    exact (proj1 (has_log_with_archive s A [Ri.ArchiveBegin B plB; Ri.ArchiveEnd]
                                       B Hne) Hlog).
Qed.

Lemma nested_archive_is_contained_witness :
  exec 0 [Ri.ArchiveBegin "A" []; Ri.ArchiveBegin "B" [];
          Ri.ArchiveEnd; Ri.ArchiveEnd] init =
    Some (with_archive init "A" [Ri.ArchiveBegin "B" []; Ri.ArchiveEnd], []) /\
  dispatch 0 (Ri.ReadArchive "B" None [])
           (with_archive init "A" [Ri.ArchiveBegin "B" []; Ri.ArchiveEnd]) =
    Some (tt, with_archive init "A" [Ri.ArchiveBegin "B" []; Ri.ArchiveEnd],
          [Forward (Ri.ReadArchive "B" None [])]).
Proof.
  destruct (nested_archive_is_contained 0 init "A" "B" [] [] eq_refl eq_refl)
    as (E & H).
  split; [exact E|].
  apply (proj2 (H ltac:(discriminate))).
  intros (st & Hin & _). inversion Hin.
Defined.

(** ** Record, then replay *)

Lemma find_stream_fresh h nm v cs :
  (forall st, st ∈ streams h v -> CachedRiStream.name st <> nm) ->
  find_stream (h ++ [CachedRiStream.Build nm cs]) nm (v ++ [length h]) =
  Some (CachedRiStream.Build nm cs).
Proof.
  induction v as [|q v IH]; intros Hno; cbn [app find_stream].
  - rewrite list_lookup_middle by reflexivity. simpl.
    now rewrite String.eqb_refl.
  - assert (Hno' : forall st, st ∈ streams h v -> CachedRiStream.name st <> nm).
    { intros st Hin. apply Hno. rewrite streams_cons.
      destruct (h !! q); [now right | exact Hin]. }
    destruct (lt_eq_lt_dec q (length h)) as [[Hlt|Heq]|Hgt].
    + rewrite lookup_app_l by exact Hlt.
      destruct (h !! q) as [st|] eqn:Eq; [|now apply IH].
      assert (Hne : CachedRiStream.name st <> nm).
      { apply Hno. rewrite streams_cons, Eq. left. }
      apply String.eqb_neq in Hne as ->. now apply IH.
    + subst q. rewrite list_lookup_middle by reflexivity. simpl.
      now rewrite String.eqb_refl.
    + rewrite lookup_ge_None_2; [now apply IH|].
      rewrite length_app. simpl. lia.
Qed.

Lemma no_log_streams s v nm :
  ~ has_log s v nm ->
  forall st, st ∈ streams (heap s) v -> CachedRiStream.name st <> nm.
Proof. intros H st Hin Hn. apply H. exists st. now split. Qed.

(** X3: an inline archive round trip.  From an Idle filter at depth 0 with
    no archive named n, ArchiveBegin n, a body of calls outside the six
    scope calls, ArchiveEnd and ReadArchive n hand to the next stage exactly
    the body without its ArchiveRecord calls, in order and only at the
    ReadArchive; the filter ends Idle with one more stream, named n and
    holding that content, at the end of the archive registry.  The same
    body dispatched without the brackets is forwarded whole. *)
Theorem archive_round_trip :
  forall (fuel : nat) (s : InlineArchiveFilter) (nm : RtConstToken)
         (pl pl' : ParamList) (cb : RtArchiveCallback) (cs : list Command),
    Idle s ->
    m_nested s = 0 ->
    ~ has_log s (m_archives s) nm ->
    Forall (fun c => scope_op c = false) cs ->
    exec fuel (Ri.ArchiveBegin nm pl :: cs ++ [Ri.ArchiveEnd]) s =
      Some (with_archive s nm (recorded cs), []) /\
    exec (S fuel) [Ri.ReadArchive nm cb pl'] (with_archive s nm (recorded cs)) =
      Some (with_archive s nm (recorded cs), map Forward (recorded cs)) /\
    exec (S fuel)
         (Ri.ArchiveBegin nm pl :: cs ++ [Ri.ArchiveEnd; Ri.ReadArchive nm cb pl']) s =
      Some (with_archive s nm (recorded cs), map Forward (recorded cs)) /\
    exec fuel cs s = Some (s, map Forward cs).
Proof.
  intros fuel s nm pl pl' cb cs Hi Hd Hno Hcs.
  assert (Hrecord : forall f,
    exec f (Ri.ArchiveBegin nm pl :: cs ++ [Ri.ArchiveEnd]) s =
    Some (with_archive s nm (recorded cs), [])).
  { intros f. rewrite exec_cons, (step_idle_ArchiveBegin f s Hi nm pl).
    set (s1 := mkFilter (heap s ++ [CachedRiStream.new nm])
                        (m_archives s ++ [length (heap s)]) (m_objectInstances s)
                        (Some (length (heap s))) (m_nested s) (m_inObject s)).
    rewrite exec_app.
    rewrite (exec_recording_flat f cs s1 (length (heap s)) (CachedRiStream.new nm)
               eq_refl (list_lookup_middle _ _ _ _ eq_refl) Hcs).
    rewrite exec_cons.
    rewrite (step_rec_ArchiveEnd_outer f
               (record_into s1 (length (heap s)) (CachedRiStream.new nm)
                            (recorded cs) (m_nested s1))
               (length (heap s)) eq_refl Hd).
    rewrite exec_nil. unfold with_archive, record_into, set_currCache. simpl.
    now rewrite insert_snoc. }
  assert (Hread : forall f,
    exec (S f) [Ri.ReadArchive nm cb pl'] (with_archive s nm (recorded cs)) =
    Some (with_archive s nm (recorded cs), map Forward (recorded cs))).
  { intros f. rewrite exec_cons.
    rewrite (step_idle_ReadArchive_found f (with_archive s nm (recorded cs))
               nm cb pl' (CachedRiStream.Build nm (recorded cs)) eq_refl
               (find_stream_fresh _ _ _ _ (no_log_streams _ _ _ Hno))).
    rewrite exec_replay. cbn [CachedRiStream.m_cmds].
    rewrite (exec_idle_other f (recorded cs) (with_archive s nm (recorded cs))
               eq_refl (recorded_other cs Hcs)).
    rewrite exec_nil. now rewrite app_nil_r. }
  repeat apply conj.
  - apply Hrecord.
  - apply Hread.
  - replace (Ri.ArchiveBegin nm pl :: cs ++ [Ri.ArchiveEnd; Ri.ReadArchive nm cb pl'])
      with ((Ri.ArchiveBegin nm pl :: cs ++ [Ri.ArchiveEnd]) ++ [Ri.ReadArchive nm cb pl'])
      by (simpl; now rewrite <- app_assoc).
    rewrite exec_app, Hrecord, Hread. reflexivity.
  - now apply exec_idle_other.
Qed.

Lemma archive_round_trip_witness :
  exec 1 (Ri.ArchiveBegin "X" [] :: [Foo1; Ri.ArchiveRecord "comment" "x"; Bar2]
            ++ [Ri.ArchiveEnd; Ri.ReadArchive "X" None []]) init =
  Some (with_archive init "X" [Foo1; Bar2], [Forward Foo1; Forward Bar2]).
Proof.
  refine (proj1 (proj2 (proj2 (archive_round_trip 0 init "X" [] [] None
            [Foo1; Ri.ArchiveRecord "comment" "x"; Bar2] _ _ _ _)))).
  - reflexivity.
  - reflexivity.
  - intros (st & Hin & _). inversion Hin.
  - repeat constructor.
Defined.

(** X4: an object instance round trip.  From an Idle filter with no object
    instance named n, ObjectBegin n, a body of calls outside the six scope
    calls, ObjectEnd and ObjectInstance n hand to the next stage exactly the
    body without its ArchiveRecord calls, only at the ObjectInstance, and
    log no error; the filter ends Idle, with the object flag cleared and one
    more stream, named n, at the end of the object-instance registry. *)
Theorem object_round_trip :
  forall (fuel : nat) (s : InlineArchiveFilter) (nm : RtConstToken)
         (cs : list Command),
    Idle s ->
    ~ has_log s (m_objectInstances s) nm ->
    Forall (fun c => scope_op c = false) cs ->
    exec fuel (Ri.ObjectBegin nm :: cs ++ [Ri.ObjectEnd]) s =
      Some (with_object s nm (recorded cs), []) /\
    exec (S fuel) [Ri.ObjectInstance nm] (with_object s nm (recorded cs)) =
      Some (with_object s nm (recorded cs), map Forward (recorded cs)) /\
    exec (S fuel) (Ri.ObjectBegin nm :: cs ++ [Ri.ObjectEnd; Ri.ObjectInstance nm]) s =
      Some (with_object s nm (recorded cs), map Forward (recorded cs)).
Proof.
  intros fuel s nm cs Hi Hno Hcs.
  assert (Hrecord : forall f,
    exec f (Ri.ObjectBegin nm :: cs ++ [Ri.ObjectEnd]) s =
    Some (with_object s nm (recorded cs), [])).
  { intros f. rewrite exec_cons, (step_idle_ObjectBegin f s Hi nm).
    set (s1 := mkFilter (heap s ++ [CachedRiStream.new nm])
                        (m_archives s) (m_objectInstances s ++ [length (heap s)])
                        (Some (length (heap s))) (m_nested s) true).
    rewrite exec_app.
    rewrite (exec_recording_flat f cs s1 (length (heap s)) (CachedRiStream.new nm)
               eq_refl (list_lookup_middle _ _ _ _ eq_refl) Hcs).
    rewrite exec_cons.
    rewrite (step_rec_ObjectEnd_object f
               (record_into s1 (length (heap s)) (CachedRiStream.new nm)
                            (recorded cs) (m_nested s1))
               (length (heap s)) eq_refl eq_refl).
    rewrite exec_nil. unfold with_object, record_into, set_currCache, set_inObject.
    simpl. now rewrite insert_snoc. }
  assert (Hinst : forall f,
    exec (S f) [Ri.ObjectInstance nm] (with_object s nm (recorded cs)) =
    Some (with_object s nm (recorded cs), map Forward (recorded cs))).
  { intros f. rewrite exec_cons.
    rewrite (step_idle_ObjectInstance_found f (with_object s nm (recorded cs))
               nm (CachedRiStream.Build nm (recorded cs)) eq_refl
               (find_stream_fresh _ _ _ _ (no_log_streams _ _ _ Hno))).
    rewrite exec_replay. cbn [CachedRiStream.m_cmds].
    rewrite (exec_idle_other f (recorded cs) (with_object s nm (recorded cs))
               eq_refl (recorded_other cs Hcs)).
    rewrite exec_nil. now rewrite app_nil_r. }
  repeat apply conj.
  - apply Hrecord.
  - apply Hinst.
  - replace (Ri.ObjectBegin nm :: cs ++ [Ri.ObjectEnd; Ri.ObjectInstance nm])
      with ((Ri.ObjectBegin nm :: cs ++ [Ri.ObjectEnd]) ++ [Ri.ObjectInstance nm])
      by (simpl; now rewrite <- app_assoc).
    rewrite exec_app, Hrecord, Hinst. reflexivity.
Qed.

Lemma object_round_trip_witness :
  exec 1 (Ri.ObjectBegin "teapot" :: [Foo1; Bar2]
            ++ [Ri.ObjectEnd; Ri.ObjectInstance "teapot"]) init =
  Some (with_object init "teapot" [Foo1; Bar2], [Forward Foo1; Forward Bar2]).
Proof.
  refine (proj2 (proj2 (object_round_trip 0 init "teapot" [Foo1; Bar2] _ _ _))).
  - reflexivity.
  - intros (st & Hin & _). inversion Hin.
  - repeat constructor.
Defined.

(** X5: replaying a stream whose content lies outside the six scope calls
    changes nothing in the filter and hands exactly that content to the
    next stage; so k ReadArchive calls, or k ObjectInstance calls, of its
    name give the content k times over. *)
Theorem flat_replay_is_repeatable :
  forall (fuel k : nat) (s : InlineArchiveFilter) (nm : string)
         (st : CachedRiStream.t),
    Idle s ->
    Forall (fun c => scope_op c = false) (CachedRiStream.m_cmds st) ->
    (find_stream (heap s) nm (m_archives s) = Some st ->
     forall cb pl,
       exec (S fuel) (replicate k (Ri.ReadArchive nm cb pl)) s =
       Some (s, concat (replicate k (map Forward (CachedRiStream.m_cmds st))))) /\
    (find_stream (heap s) nm (m_objectInstances s) = Some st ->
     exec (S fuel) (replicate k (Ri.ObjectInstance nm)) s =
     Some (s, concat (replicate k (map Forward (CachedRiStream.m_cmds st))))).
Proof.
  intros fuel k s nm st Hi Hst. split.
  - intros Hf cb pl. induction k as [|k IH]; [reflexivity|].
    cbn [replicate concat]. rewrite exec_cons.
    rewrite (step_idle_ReadArchive_found fuel s nm cb pl st Hi Hf).
    rewrite exec_replay, (exec_idle_other fuel _ s Hi Hst). now rewrite IH.
  - intros Hf. induction k as [|k IH]; [reflexivity|].
    cbn [replicate concat]. rewrite exec_cons.
    rewrite (step_idle_ObjectInstance_found fuel s nm st Hi Hf).
    rewrite exec_replay, (exec_idle_other fuel _ s Hi Hst). now rewrite IH.
Qed.

Lemma flat_replay_is_repeatable_witness :
  exec 1 (replicate 2 (Ri.ReadArchive "X" None [])) after_twice_X =
  Some (after_twice_X, [Forward Foo1; Forward Foo1]).
Proof.
  refine (proj1 (flat_replay_is_repeatable 0 2 after_twice_X "X"
                   (CachedRiStream.Build "X" [Foo1]) _ _) _ None []).
  - reflexivity.
  - repeat constructor.
  - reflexivity.
Defined.

(** ** What holds after any sequence of calls *)

(** X6: after any sequence of calls on a new filter, replays included,
    every pointer the filter holds is the address of a stream: each entry of
    the two registries, and the current stream whenever one is recorded. *)
Theorem pointers_always_address_streams :
  forall (fuel : nat) (cs : list Command) (s : InlineArchiveFilter)
         (tr : list Event),
    exec fuel cs init = Some (s, tr) ->
    (forall p, p ∈ m_archives s -> exists st, heap s !! p = Some st) /\
    (forall p, p ∈ m_objectInstances s -> exists st, heap s !! p = Some st) /\
    (forall p, Recording s p -> exists st, heap s !! p = Some st) /\
    length (streams (heap s) (m_archives s)) = length (m_archives s) /\
    length (streams (heap s) (m_objectInstances s)) = length (m_objectInstances s).
Proof.
  intros fuel cs s tr H. pose proof (exec_wf _ _ _ _ H) as (Ha & Ho & Hc).
  assert (Hlen : forall v, Forall (fun p => (p < length (heap s))%nat) v ->
                           length (streams (heap s) v) = length v).
  { induction 1 as [|q v Hq _ IH]; [reflexivity|].
    rewrite streams_cons.
    destruct (lookup_lt_is_Some_2 _ _ Hq) as (st & ->). simpl. now rewrite IH. }
  rewrite Forall_forall in Ha, Ho.
  repeat apply conj; auto.
  - intros p Hin. apply lookup_lt_is_Some_2. auto.
  - intros p Hin. apply lookup_lt_is_Some_2. auto.
  - intros p Hrec. apply lookup_lt_is_Some_2. auto.
  - apply Hlen. now apply Forall_forall.
  - apply Hlen. now apply Forall_forall.
Qed.

Lemma pointers_always_address_streams_witness :
  exists st, heap after_twice_X !! 1%nat = Some st.
Proof.
  refine (proj1 (pointers_always_address_streams 0 twice_X after_twice_X [] _)
                1%nat _).
  - vm_compute. reflexivity.
  - right. left.
Defined.

(** X7: a stream is written to only while it is the current one.  From a
    filter whose pointers are valid, no sequence of calls, replays
    included, changes the content of a stream that is not being recorded,
    and such a stream never becomes current again. *)
Theorem closed_streams_never_change :
  forall (fuel : nat) (cs : list Command) (s s' : InlineArchiveFilter)
         (tr : list Event) (q : nat) (st : CachedRiStream.t),
    wf s ->
    exec fuel cs s = Some (s', tr) ->
    heap s !! q = Some st ->
    m_currCache s <> Some q ->
    heap s' !! q = Some st /\ m_currCache s' <> Some q.
Proof.
  intros fuel cs s s' tr q st Hwf H Hq Hne.
  destruct (exec_keeps _ _ _ _ _ H Hwf) as (_ & Hk). now apply Hk.
Qed.

Lemma closed_streams_never_change_witness :
  heap (mkFilter [log_X; log_Y] [0%nat; 1%nat] [] None 0 false) !! 0%nat =
  Some log_X.
Proof.
  refine (proj1 (closed_streams_never_change 1 [Ri.ReadArchive "X" None []]
            (mkFilter [log_X] [0%nat] [] None 0 false)
            (mkFilter [log_X; log_Y] [0%nat; 1%nat] [] None 0 false)
            [Forward Foo1; Forward Baz3] 0%nat log_X _ _ _ _)).
  - repeat split; [repeat constructor | constructor | discriminate].
  - vm_compute. reflexivity.
  - reflexivity.
  - discriminate.
Defined.

(** X8: no call, whatever the state of the filter, removes or reorders an
    entry of a registry, or renames or frees a stream: after any sequence
    of calls each registry is the old one with entries added at the end,
    and every address still holds a stream of the same name. *)
Theorem registries_only_grow :
  forall (fuel : nat) (cs : list Command) (s s' : InlineArchiveFilter)
         (tr : list Event),
    exec fuel cs s = Some (s', tr) ->
    (exists a, m_archives s' = m_archives s ++ a) /\
    (exists o, m_objectInstances s' = m_objectInstances s ++ o) /\
    (forall q st, heap s !! q = Some st ->
       exists st', heap s' !! q = Some st' /\
                   CachedRiStream.name st' = CachedRiStream.name st).
Proof. intros fuel cs s s' tr H. exact (exec_extends _ _ _ _ _ H). Qed.

Lemma registries_only_grow_witness :
  exists a, m_archives after_twice_X = m_archives init ++ a.
Proof.
  exact (proj1 (registries_only_grow 0 twice_X init after_twice_X []
                  ltac:(vm_compute; reflexivity))).
Defined.

(** ** While a stream is recorded *)

(** X9: while a stream is recorded, any call returns at once, without
    replay or look-up: nothing is handed to the next stage, no error is
    logged, no stream is created and no registry changes.  The recording
    stays on the same stream unless the call is an ArchiveEnd or an
    ObjectEnd, the only calls that can end it. *)
Theorem recording_is_silent :
  forall (fuel : nat) (c : Command) (s : InlineArchiveFilter) (p : nat),
    Recording s p ->
    exists s',
      dispatch fuel c s = Some (tt, s', []) /\
      m_archives s' = m_archives s /\
      m_objectInstances s' = m_objectInstances s /\
      length (heap s') = length (heap s) /\
      (Recording s' p \/
       Idle s' /\ (c = Ri.ArchiveEnd \/ c = Ri.ObjectEnd)).
Proof.
  intros fuel c s p Hrec. rewrite dispatch_eq.
  destruct c; simpl; unfold_m; rewrite Hrec;
    try destruct (negb _); eexists; (split; [reflexivity|]); simpl;
    rewrite ?length_alter; repeat split; auto.
  all: right; split; [reflexivity | auto].
Qed.

Lemma recording_is_silent_witness :
  exists s',
    dispatch 0 (Ri.ObjectInstance "teapot")
      (mkFilter [CachedRiStream.new "a"] [0%nat] [] (Some 0%nat) 0 false) =
    Some (tt, s', []).
Proof.
  destruct (recording_is_silent 0 (Ri.ObjectInstance "teapot")
              (mkFilter [CachedRiStream.new "a"] [0%nat] [] (Some 0%nat) 0 false)
              0%nat eq_refl) as (s' & E & _).
  exists s'. exact E.
Defined.

(** ** Ownership and destruction *)

Lemma owned_init : owned init.
Proof. unfold owned. reflexivity. Qed.

Lemma owned_new_archive (a o : list nat) (n : nat) :
  a ++ o ≡ₚ seq 0 n -> (a ++ [n]) ++ o ≡ₚ seq 0 (n + 1).
Proof.
  intros H. rewrite Nat.add_1_r, seq_S. simpl. rewrite <- H.
  rewrite <- !app_assoc. apply Permutation_app_head, Permutation_app_comm.
Qed.

Lemma owned_new_object (a o : list nat) (n : nat) :
  a ++ o ≡ₚ seq 0 n -> a ++ o ++ [n] ≡ₚ seq 0 (n + 1).
Proof.
  intros H. rewrite Nat.add_1_r, seq_S. simpl. rewrite <- H.
  now rewrite <- app_assoc.
Qed.

Lemma owned_direct c s s' tr :
  handle skip c s = Some (tt, s', tr) -> owned s -> owned s'.
Proof.
  unfold owned. intros H Ho. revert H.
  destruct c; simpl; unfold_m; destruct (m_currCache s) as [p|] eqn:Ecur;
    try destruct (negb _);
    try match goal with
        | |- context [find_stream ?h ?n ?v] => destruct (find_stream h n v)
        end;
    try rewrite replay_cmds_skip;
    intros [= <- <-]; simpl;
    rewrite ?length_alter, ?length_app; simpl; try assumption.
  - now apply owned_new_archive.
  - now apply owned_new_object.
Qed.

Lemma exec_owned fuel cs s tr : exec fuel cs init = Some (s, tr) -> owned s.
Proof.
  intros H.
  apply (exec_rel (fun s s' => owned s -> owned s')) in H;
    eauto using owned_direct, owned_init.
Qed.

Lemma delete_each_spec (v : list nat) :
  forall h,
    NoDup v ->
    (forall p, p ∈ v -> exists st, h !! p = Some (Some st)) ->
    exists h',
      delete_each v h = Some h' /\
      length h' = length h /\
      (forall i, i ∈ v -> h' !! i = Some None) /\
      (forall i, i ∉ v -> h' !! i = h !! i).
Proof.
  induction v as [|p v IH]; intros h Hnd Hlive.
  - exists h. split; [reflexivity|]. split; [reflexivity|].
    split; [|reflexivity]. intros i Hin. inversion Hin.
  - apply NoDup_cons in Hnd as (Hp & Hnd).
    destruct (Hlive p) as (st & Hst); [left|].
    assert (Hlt : (p < length h)%nat) by (eapply lookup_lt_Some; eauto).
    destruct (IH (<[p := None]> h) Hnd) as (h' & E & Hlen & Hin & Hout).
    { intros q Hq. destruct (Hlive q) as (st' & Hq'); [now right|].
      exists st'. rewrite list_lookup_insert_ne; [exact Hq'|].
      intros ->. contradiction. }
    exists h'. simpl. unfold delete_stream. rewrite Hst.
    split; [exact E|]. split; [now rewrite Hlen, length_insert|]. split.
    + intros i Hi. apply elem_of_cons in Hi as [->|Hi]; [|now apply Hin].
      rewrite (Hout p Hp). now apply list_lookup_insert_eq.
    + intros i Hi. apply not_elem_of_cons in Hi as (Hne & Hi).
      rewrite (Hout i Hi). now apply list_lookup_insert_ne.
Qed.

(** X10: the destructor of a filter that has served any sequence of calls
    deletes every stream the filter created exactly once.  Each of its
    deletes finds a live stream, so none is deleted twice and no pointer is
    dangling, and no stream is left alive afterwards. *)
Theorem destructor_deletes_each_stream_once :
  forall (fuel : nat) (cs : list Command) (s : InlineArchiveFilter)
         (tr : list Event),
    exec fuel cs init = Some (s, tr) ->
    destructor s = Some (replicate (length (heap s)) None) /\
    NoDup (m_archives s ++ m_objectInstances s) /\
    (length (m_archives s) + length (m_objectInstances s))%nat =
      length (heap s).
Proof.
  intros fuel cs s tr H. pose proof (exec_owned _ _ _ _ H) as Ho.
  unfold owned in Ho.
  assert (Hnd : NoDup (m_archives s ++ m_objectInstances s))
    by (rewrite Ho; apply NoDup_seq).
  assert (Hall : forall p, p ∈ m_archives s ++ m_objectInstances s <->
                           (p < length (heap s))%nat).
  { intros p. rewrite Ho, elem_of_seq. lia. }
  split; [|split; [exact Hnd|]].
  2:{ rewrite <- length_app, Ho. apply length_seq. }
  apply NoDup_app in Hnd as (Hna & Hdisj & Hno).
  assert (Hlive : forall p, (p < length (heap s))%nat ->
                    exists st, (Some <$> heap s) !! p = Some (Some st)).
  { intros p Hp. destruct (lookup_lt_is_Some_2 _ _ Hp) as (st & Hst).
    exists st. now rewrite list_lookup_fmap, Hst. }
  destruct (delete_each_spec (m_archives s) (Some <$> heap s) Hna)
    as (h1 & E1 & Hlen1 & Hin1 & Hout1).
  { intros p Hp. apply Hlive, Hall, elem_of_app. now left. }
  destruct (delete_each_spec (m_objectInstances s) h1 Hno)
    as (h2 & E2 & Hlen2 & Hin2 & Hout2).
  { intros p Hp. rewrite Hout1.
    - apply Hlive, Hall, elem_of_app. now right.
    - intros Hpa. exact (Hdisj p Hpa Hp). }
  unfold destructor. rewrite E1, E2. f_equal.
  apply list_eq. intros i.
  destruct (decide (i < length (heap s))%nat) as [Hi|Hi].
  - rewrite lookup_replicate_2 by exact Hi.
    apply Hall, elem_of_app in Hi as [Hia|Hio]; [|now apply Hin2].
    destruct (decide (i ∈ m_objectInstances s)) as [Hio|Hio];
      [now apply Hin2|].
    rewrite (Hout2 i Hio). now apply Hin1.
  - rewrite lookup_ge_None_2
      by (rewrite Hlen2, Hlen1, length_fmap; lia).
    symmetry. apply lookup_replicate_None. lia.
Qed.

Lemma destructor_deletes_each_stream_once_witness :
  destructor after_twice_X = Some [None; None].
Proof.
  exact (proj1 (destructor_deletes_each_stream_once 0 twice_X after_twice_X []
                  ltac:(vm_compute; reflexivity))).
Defined.

(** ** ArchiveRecord calls *)

Lemma no_records_direct c s s' tr :
  handle skip c s = Some (tt, s', tr) -> no_records s -> no_records s'.
Proof.
  unfold no_records. intros H Hn.
  assert (Hpush : forall c' p, is_ArchiveRecord c' = false ->
            Forall (fun st => Forall (fun c0 => is_ArchiveRecord c0 = false)
                                     (CachedRiStream.m_cmds st))
                   (alter (CachedRiStream.push_back c') p (heap s))).
  { intros c' p Hc'. apply Forall_alter; [exact Hn|].
    intros st _ Hst. simpl. apply Forall_app. split; [exact Hst|].
    now repeat constructor. }
  assert (Hnew : forall nm,
            Forall (fun st => Forall (fun c0 => is_ArchiveRecord c0 = false)
                                     (CachedRiStream.m_cmds st))
                   (heap s ++ [CachedRiStream.new nm])).
  { intros nm. apply Forall_app. split; [exact Hn|]. repeat constructor. }
  revert H.
  destruct c; simpl; unfold_m; destruct (m_currCache s) as [p|] eqn:Ecur;
    try destruct (negb _);
    try match goal with
        | |- context [find_stream ?h ?n ?v] => destruct (find_stream h n v)
        end;
    try rewrite replay_cmds_skip;
    intros [= <- <-]; simpl; auto.
Qed.

(** X11: an ArchiveRecord never enters a stream.  After any sequence of
    calls on a new filter no stream holds one, so what is issued as an
    ArchiveRecord while a stream is recorded is not part of any replay of
    that stream. *)
Theorem ArchiveRecord_is_never_recorded :
  forall (fuel : nat) (cs : list Command) (s : InlineArchiveFilter)
         (tr : list Event) (q : nat) (st : CachedRiStream.t)
         (ty : RtConstToken) (str : string),
    exec fuel cs init = Some (s, tr) ->
    heap s !! q = Some st ->
    Ri.ArchiveRecord ty str ∉ CachedRiStream.m_cmds st.
Proof.
  intros fuel cs s tr q st ty str H Hq Hin.
  assert (Hn : no_records s).
  { refine (exec_rel (fun s s' => no_records s -> no_records s')
              _ _ no_records_direct fuel cs init s tr H _).
    - intros s0 H0. exact H0.
    - intros s1 s2 s3 H12 H23 H1. exact (H23 (H12 H1)).
    - constructor. }
  unfold no_records in Hn. rewrite Forall_forall in Hn.
  specialize (Hn st (list_elem_of_lookup_2 _ _ _ Hq)).
  rewrite Forall_forall in Hn. specialize (Hn _ Hin). discriminate.
Qed.

Lemma ArchiveRecord_is_never_recorded_witness :
  Ri.ArchiveRecord "comment" "x" ∉ [Foo1; Bar2].
Proof.
  exact (ArchiveRecord_is_never_recorded 0
           (Ri.ArchiveBegin "X" [] :: [Foo1; Ri.ArchiveRecord "comment" "x"; Bar2]
              ++ [Ri.ArchiveEnd])
           (with_archive init "X" [Foo1; Bar2]) [] 0%nat
           (CachedRiStream.Build "X" [Foo1; Bar2]) "comment" "x"
           ltac:(vm_compute; reflexivity) eq_refl).
Defined.

(** * Properties of the socket wrapper *)

Ltac unfold_io :=
  unfold Socket.prepare, Socket.connect, Socket.open, Socket.bind,
    Socket.listen, Socket.accept, Socket.close, Socket.syscall,
    Socket.sysrecv, Socket.get_errno, Socket.log, Socket.set_socket,
    Socket.set_port, Socket.this, Socket.no_result, mbind, mret,
    Socket.IO_bind, Socket.IO_ret, Socket.io_bind, Socket.io_ret in *.

Tactic Notation "step_call" ident(r) ident(w') :=
  match goal with
  | |- context [Socket.call ?os ?c ?w] =>
      destruct (Socket.call os c w) as [r w']; simpl
  end.

(** X12: [prepare] on any system.  When it returns true the object holds
    the descriptor that [socket] gave, distinct from INVALID_SOCKET, and
    the port asked for, and nothing was logged.  When it returns false the
    object is invalid ([operator bool] is false), exactly one error line was
    logged, and a descriptor that [socket] had given was closed by the last
    system call made. *)
Theorem prepare_outcome :
  forall (os : Socket.OS) (port : Z) (s : Socket.CqSocket)
         (w : Socket.World os),
  exists (b : bool) (s' : Socket.CqSocket) (w' : Socket.World os)
         (tr : list Socket.Event) (fd : Z),
    Socket.prepare os port (s, w) = Some (b, (s', w'), tr) /\
    fd = fst (Socket.call os Socket.sys_socket w) /\
    (b = true ->
       Socket.as_bool s' = true /\ Socket.m_socket s' = fd /\
       Socket.m_port s' = port /\ Socket.logged tr = []) /\
    (b = false ->
       Socket.as_bool s' = false /\
       length (Socket.logged tr) = 1%nat /\
       (fd <> Socket.INVALID_SOCKET ->
        last (Socket.calls tr) = Some (Socket.sys_close fd))).
Proof.
  intros os port s w. unfold_io. simpl.
  destruct (Socket.call os Socket.sys_socket w) as [fd w1]. simpl.
  destruct (Z.eqb_spec fd Socket.INVALID_SOCKET) as [Hfd|Hfd]; simpl.
  { do 5 eexists. split; [reflexivity|]. split; [reflexivity|].
    split; [discriminate|]. intros _. subst fd. repeat split. easy. }
  assert (Hvalid : forall p, Socket.as_bool (Socket.mkSocket fd p) = true).
  { intros p. unfold Socket.as_bool. simpl. now apply Z.eqb_neq in Hfd as ->. }
  step_call r2 w2. step_call r3 w3.
  destruct (Z.eqb_spec r3 (-1)); simpl.
  { step_call r4 w4. do 5 eexists. split; [reflexivity|]. split; [reflexivity|].
    split; [discriminate|]. intros _. repeat split. }
  step_call r4 w4.
  destruct (Z.eqb_spec r4 (-1)); simpl.
  { step_call r5 w5. do 5 eexists. split; [reflexivity|]. split; [reflexivity|].
    split; [discriminate|]. intros _. repeat split. }
  do 5 eexists. split; [reflexivity|]. split; [reflexivity|].
  split; [|discriminate]. intros _. repeat split. apply Hvalid.
Qed.


(** ** Sending and receiving a message *)

Lemma sent_cons_send fd buf n tr :
  Socket.sent (Socket.Called (Socket.sys_send fd buf) n :: tr) =
  take (Z.to_nat n) buf ++ Socket.sent tr.
Proof. reflexivity. Qed.

Lemma send_loop_done os fuel data tot need st :
  need <= 0 ->
  Socket.send_loop os fuel data tot need st = Some (tot, st, []).
Proof.
  intros H. destruct fuel; simpl;
    destruct (Z.gtb_spec need 0); try lia; reflexivity.
Qed.

Lemma send_loop_step os fuel data tot need s w buf :
  0 < need ->
  Socket.buffer_at data tot need = Some buf ->
  Socket.send_loop os (S fuel) data tot need (s, w) =
  match Socket.send_loop os fuel data
          (int_wrap (tot + fst (Socket.call os (Socket.sys_send (Socket.m_socket s) buf) w)))
          (int_wrap (need - fst (Socket.call os (Socket.sys_send (Socket.m_socket s) buf) w)))
          (s, snd (Socket.call os (Socket.sys_send (Socket.m_socket s) buf) w)) with
  | Some (r, st', tr) =>
      Some (r, st',
            Socket.Called (Socket.sys_send (Socket.m_socket s) buf)
              (fst (Socket.call os (Socket.sys_send (Socket.m_socket s) buf) w)) :: tr)
  | None => None
  end.
Proof.
  intros Hn Hb. cbn [Socket.send_loop].
  destruct (Z.gtb_spec need 0); [|lia].
  unfold_io. cbn [fst snd]. rewrite Hb. cbn [fst snd].
  destruct (Socket.call os _ w) as [n w1]. cbn [fst snd].
  destruct (Socket.send_loop os fuel data _ _ (s, w1)) as [[[r st'] tr]|];
    reflexivity.
Qed.

Lemma buffer_at_rest data (tot need : nat) :
  (tot + need = length data)%nat ->
  Socket.buffer_at data (Z.of_nat tot) (Z.of_nat need) = Some (drop tot data).
Proof.
  intros H. unfold Socket.buffer_at.
  destruct (Z.leb_spec 0 (Z.of_nat tot)); [|lia].
  destruct (Z.leb_spec 0 (Z.of_nat need)); [|lia].
  destruct (Z.leb_spec (Z.of_nat tot + Z.of_nat need) (Z.of_nat (length data) + 1));
    [|lia].
  cbn [andb]. rewrite !Nat2Z.id. f_equal.
  rewrite drop_app_le by lia.
  rewrite take_app_le by (rewrite length_drop; lia).
  apply take_ge. rewrite length_drop. lia.
Qed.

Lemma send_loop_spec os data :
  Socket.send_progresses os ->
  Z.of_nat (length data) < INT_MAX ->
  forall (fuel tot need : nat) s w,
    (tot + need = length data)%nat ->
    (need <= fuel)%nat ->
    exists w' tr,
      Socket.send_loop os fuel data (Z.of_nat tot) (Z.of_nat need) (s, w) =
        Some (Z.of_nat (length data), (s, w'), tr) /\
      Socket.sent tr = drop tot data /\
      Socket.logged tr = [] /\
      (forall wire, Socket.queues os wire -> wire w' = wire w ++ drop tot data).
Proof.
  intros Hos Hlen fuel.
  induction fuel as [|f IH]; intros tot need s w Hsum Hfuel.
  - assert (need = 0)%nat as -> by lia.
    rewrite send_loop_done by lia. exists w, [].
    assert (tot = length data) as -> by lia.
    rewrite drop_ge by lia.
    split; [reflexivity|]. split; [reflexivity|]. split; [reflexivity|].
    intros wire _. now rewrite app_nil_r.
  - destruct need as [|need'].
    { rewrite send_loop_done by lia. exists w, [].
      assert (tot = length data) as -> by lia.
      rewrite drop_ge by lia.
      split; [reflexivity|]. split; [reflexivity|]. split; [reflexivity|].
      intros wire _. now rewrite app_nil_r. }
    set (need := S need') in *.
    rewrite (send_loop_step os f data _ _ s w (drop tot data))
      by (try apply buffer_at_rest; lia).
    assert (Hne : drop tot data <> []).
    { intros E. apply (f_equal length) in E. rewrite length_drop in E.
      simpl in E. lia. }
    pose proof (Hos (Socket.m_socket s) (drop tot data) w Hne) as Hn.
    rewrite length_drop in Hn.
    remember (Socket.call os (Socket.sys_send (Socket.m_socket s) (drop tot data)) w)
      as rw eqn:Erw.
    destruct rw as [n w1]. cbn [fst snd] in *.
    assert (Hk : n = Z.of_nat (Z.to_nat n)) by lia.
    set (k := Z.to_nat n) in *.
    rewrite !int_wrap_small by (unfold INT_MAX in *; lia).
    replace (Z.of_nat tot + n) with (Z.of_nat (tot + k)) by lia.
    replace (Z.of_nat need - n) with (Z.of_nat (need - k)) by lia.
    destruct (IH (tot + k)%nat (need - k)%nat s w1) as (w' & tr & E & Hs & Hl & Hw);
      [lia | lia |].
    rewrite E. exists w'. eexists. split; [reflexivity|].
    assert (Hsplit : take k (drop tot data) ++ drop (tot + k) data = drop tot data).
    { rewrite <- drop_drop. apply take_drop. }
    split; [|split].
    + rewrite sent_cons_send. fold k. now rewrite Hs.
    + exact Hl.
    + intros wire Hq. rewrite (Hw wire Hq).
      pose proof (Hq (Socket.m_socket s) (drop tot data) w) as Hq1.
      rewrite <- Erw in Hq1. cbn [fst snd] in Hq1. fold k in Hq1.
      now rewrite Hq1, <- app_assoc, Hsplit.
Qed.

Lemma sendData_spec os data fuel s w :
  Socket.send_progresses os ->
  Z.of_nat (length data) < INT_MAX ->
  (length data <= fuel)%nat ->
  exists w' tr,
    Socket.sendData os fuel data (s, w) =
      Some (Z.of_nat (length data) + 1, (s, w'), tr) /\
    Socket.sent tr = data ++ ["000"%char] /\
    Socket.logged tr = [] /\
    (forall wire, Socket.queues os wire ->
       wire w' = wire w ++ data ++ ["000"%char]).
Proof.
  intros Hos Hlen Hfuel.
  destruct (send_loop_spec os data Hos Hlen fuel 0 (length data) s w)
    as (w1 & tr1 & E1 & Hs1 & Hl1 & Hw1); [lia | lia |].
  unfold Socket.sendData. unfold_io.
  rewrite int_wrap_small by (unfold INT_MAX in *; lia).
  change 0 with (Z.of_nat 0). rewrite E1. cbn [fst snd].
  pose proof (Hos (Socket.m_socket s) ["000"%char] w1 ltac:(discriminate)) as Hn.
  pose proof (fun wire (Hq : Socket.queues os wire) =>
                Hq (Socket.m_socket s) ["000"%char] w1) as Hq1.
  destruct (Socket.call os (Socket.sys_send (Socket.m_socket s) ["000"%char]) w1)
    as [n w2]. cbn [fst snd length] in *.
  assert (n = 1) as -> by lia.
  rewrite int_wrap_small by (unfold INT_MAX in *; lia).
  exists w2. eexists. split; [reflexivity|]. split; [|split].
  - unfold Socket.sent in *. rewrite omap_app, concat_app, Hs1. reflexivity.
  - unfold Socket.logged in *. rewrite omap_app, Hl1. reflexivity.
  - intros wire Hq. rewrite (Hq1 wire Hq), (Hw1 wire Hq).
    now rewrite <- app_assoc.
Qed.

(** X14: [sendData] on a system whose [send] takes at least one byte and
    at most what it is offered.  For a string shorter than INT_MAX the loop
    ends within as many rounds as the string has bytes, whatever the sizes
    of the partial sends; the bytes taken by the system are the string
    followed by one zero byte, in order and without repetition; the value
    returned is the length of the string plus one; the object is unchanged
    and nothing is logged. *)
Theorem sendData_sends_the_string_and_a_terminator :
  forall (os : Socket.OS) (data : list ascii) (fuel : nat)
         (s : Socket.CqSocket) (w : Socket.World os),
    Socket.send_progresses os ->
    Z.of_nat (length data) < INT_MAX ->
    (length data <= fuel)%nat ->
    exists w' tr,
      Socket.sendData os fuel data (s, w) =
        Some (Z.of_nat (length data) + 1, (s, w'), tr) /\
      Socket.sent tr = data ++ ["000"%char] /\
      Socket.logged tr = [].
Proof.
  intros os data fuel s w Hos Hlen Hfuel.
  destruct (sendData_spec os data fuel s w Hos Hlen Hfuel)
    as (w' & tr & E & Hs & Hl & _).
  exists w', tr. auto.
Qed.

Lemma pipe_progresses chunk :
  (1 <= chunk)%nat -> Socket.send_progresses (Socket.pipe chunk).
Proof.
  intros Hc fd buf w Hne. cbn. rewrite length_take.
  destruct buf; [contradiction|]. cbn [length]. lia.
Qed.


Lemma sendData_sends_the_string_and_a_terminator_witness :
  exists w' tr,
    Socket.sendData (Socket.pipe 2) 3 ["a"; "b"; "c"]%char (Socket.default, []) =
      Some (4, (Socket.default, w'), tr) /\
    Socket.sent tr = ["a"; "b"; "c"; "000"]%char.
Proof.
  destruct (sendData_sends_the_string_and_a_terminator (Socket.pipe 2)
              ["a"; "b"; "c"]%char 3 Socket.default []
              (pipe_progresses 2 ltac:(lia)) ltac:(reflexivity) ltac:(simpl; lia))
    as (w' & tr & E & Hs & _).
  exists w', tr. split; assumption.
Defined.

Section ReceiveFacts.
Variable os : Socket.OS.
Variable Buffer : Type.
Variable put : ascii -> Buffer -> Buffer.

Lemma recvData_step fuel buffer total s w :
  Socket.recvData os Buffer put (S fuel) buffer total (s, w) =
  let '(count, c, w1) := Socket.recv os (Socket.m_socket s) w in
  match (if count <=? 0 then Socket.recvData os Buffer put fuel buffer total (s, w1)
         else if Ascii.eqb c "000" then Some ((total, buffer), (s, w1), [])
         else Socket.recvData os Buffer put fuel (put c buffer)
                              (int_wrap (total + count)) (s, w1))
  with
  | Some (r, st', tr) =>
      Some (r, st', Socket.Received (Socket.m_socket s) count c :: tr)
  | None => None
  end.
Proof.
  cbn [Socket.recvData]. unfold_io. cbn [fst snd].
  destruct (Socket.recv os (Socket.m_socket s) w) as [[count c] w1].
  cbn [fst snd].
  destruct (count <=? 0).
  - destruct (Socket.recvData os Buffer put fuel buffer total (s, w1))
      as [[[r st'] tr]|]; reflexivity.
  - destruct (Ascii.eqb c "000"); [reflexivity|].
    destruct (Socket.recvData os Buffer put fuel _ _ (s, w1))
      as [[[r st'] tr]|]; reflexivity.
Qed.
End ReceiveFacts.

Lemma delivered_cons fd n c tr :
  Socket.delivered (Socket.Received fd n c :: tr) =
  if 0 <? n then c :: Socket.delivered tr else Socket.delivered tr.
Proof. unfold Socket.delivered. simpl. now destruct (0 <? n). Qed.

(** X15: whenever [recvData] returns, on any system and for any kind of
    buffer, the characters that [recv] delivered (the calls with a positive
    count, in order) are a message free of zero bytes followed by one zero
    byte, and the buffer returned is the buffer given after one [put] for
    each character of that message, in order, and no other [put]: neither
    the terminator nor anything from a [recv] that delivered nothing, which
    is retried.  The object is unchanged, no other system call is made and
    nothing is logged. *)
Theorem recvData_returns_the_message_before_the_terminator :
  forall (os : Socket.OS) (Buffer : Type) (put : ascii -> Buffer -> Buffer)
         (fuel : nat) (buffer : Buffer) (total : Z)
         (s : Socket.CqSocket) (w : Socket.World os)
         (r : Z) (buffer' : Buffer) (s' : Socket.CqSocket)
         (w' : Socket.World os) (tr : list Socket.Event),
    Socket.recvData os Buffer put fuel buffer total (s, w) =
      Some ((r, buffer'), (s', w'), tr) ->
    exists payload,
      Socket.delivered tr = payload ++ ["000"%char] /\
      ("000"%char ∉ payload) /\
      buffer' = fold_left (fun b c => put c b) payload buffer /\
      s' = s /\
      Socket.logged tr = [] /\
      Socket.calls tr = [].
Proof.
  intros os Buffer put fuel. induction fuel as [|f IH];
    intros buffer total s w r buffer' s' w' tr H; [discriminate|].
  rewrite recvData_step in H.
  destruct (Socket.recv os (Socket.m_socket s) w) as [[count c] w1].
  destruct (Z.leb_spec count 0) as [Hc|Hc].
  - destruct (Socket.recvData os Buffer put f buffer total (s, w1))
      as [[[[r1 b1] [s1 w2]] tr1]|] eqn:E; [|discriminate].
    injection H as <- <- <- <- <-.
    destruct (IH _ _ _ _ _ _ _ _ _ E) as (payload & Hd & Hz & Hb & Hs & Hl & Hcs).
    exists payload. rewrite delivered_cons.
    destruct (Z.ltb_spec 0 count); [lia|].
    split; [exact Hd|]. split; [exact Hz|]. split; [exact Hb|].
    split; [exact Hs|]. split; [exact Hl | exact Hcs].
  - assert (Hpos : (0 <? count) = true) by (apply Z.ltb_lt; lia).
    destruct (Ascii.eqb_spec c "000") as [->|Hne].
    + injection H as <- <- <- <- <-. exists [].
      rewrite delivered_cons, Hpos.
      split; [reflexivity|]. split; [apply not_elem_of_nil|].
      split; [reflexivity|]. split; [reflexivity|].
      split; reflexivity.
    + destruct (Socket.recvData os Buffer put f (put c buffer) _ (s, w1))
        as [[[[r1 b1] [s1 w2]] tr1]|] eqn:E; [|discriminate].
      injection H as <- <- <- <- <-.
      destruct (IH _ _ _ _ _ _ _ _ _ E) as (payload & Hd & Hz & Hb & Hs & Hl & Hcs).
      exists (c :: payload). rewrite delivered_cons, Hpos.
      split; [cbn; now rewrite Hd|].
      split; [apply not_elem_of_cons; split; [congruence | exact Hz]|].
      split; [exact Hb|].
      split; [exact Hs|]. split; [exact Hl | exact Hcs].
Qed.

Lemma recvData_returns_the_message_before_the_terminator_witness :
  exists payload,
    Socket.delivered [Socket.Received (-1) 1 "h"; Socket.Received (-1) 1 "i";
                      Socket.Received (-1) 1 "000"]%char =
      payload ++ ["000"%char] /\
    Socket.mkStringstream ["h"; "i"; "c"]%char 2 true =
      fold_left (fun b c => Socket.sput c b) payload
                (Socket.mkStringstream ["a"; "b"; "c"]%char 0 true).
Proof.
  destruct (recvData_returns_the_message_before_the_terminator
              (Socket.pipe 1) Socket.stringstream Socket.sput 3
              (Socket.mkStringstream ["a"; "b"; "c"]%char 0 true) 0
              Socket.default ["h"; "i"; "000"; "x"]%char
              2 (Socket.mkStringstream ["h"; "i"; "c"]%char 2 true)
              Socket.default ["x"]%char
              [Socket.Received (-1) 1 "h"; Socket.Received (-1) 1 "i";
               Socket.Received (-1) 1 "000"]%char
              ltac:(vm_compute; reflexivity))
    as (payload & Hd & _ & Hb & _).
  exists payload. split; assumption.
Defined.

(** X16: [recvData] does not return while [recv] delivers nothing: on a
    system whose [recv] always returns a count of 0 or less, as on a
    connection the peer has closed, the loop never ends. *)
Theorem recvData_spins_while_nothing_arrives :
  forall (os : Socket.OS) (Buffer : Type) (put : ascii -> Buffer -> Buffer)
         (fuel : nat) (buffer : Buffer) (total : Z)
         (s : Socket.CqSocket) (w : Socket.World os),
    (forall fd w0, fst (fst (Socket.recv os fd w0)) <= 0) ->
    Socket.recvData os Buffer put fuel buffer total (s, w) = None.
Proof.
  intros os Buffer put fuel buffer total s w Hos. revert w.
  induction fuel as [|f IH]; intros w; [reflexivity|].
  rewrite recvData_step. pose proof (Hos (Socket.m_socket s) w) as Hc.
  destruct (Socket.recv os (Socket.m_socket s) w) as [[count c] w1].
  cbn [fst] in Hc. destruct (Z.leb_spec count 0); [|lia].
  now rewrite IH.
Qed.

Lemma recvData_spins_while_nothing_arrives_witness :
  Socket.recvData Socket.closed Socket.stringstream Socket.sput 1000
                  Socket.empty_stream 0 (Socket.default, tt) = None.
Proof.
  apply (recvData_spins_while_nothing_arrives Socket.closed
           Socket.stringstream Socket.sput 1000 Socket.empty_stream 0
           Socket.default tt).
  intros fd w0; simpl; lia.
Defined.





